(** * AutoStream conversational agent: a shallow embedding of [main.py]

    The development follows the layout of the source file: text helpers
    ([str.strip], the [in] operator), the intent classifier
    [detect_intent], the knowledge lookups [rag_pricing_answer] and
    [rag_policy_answer], the validator [is_valid_email] with its compiled
    pattern [EMAIL_RE], the session object [AgentState] with its bounded
    [memory], the fallback [llm_reply], the dialogue controller
    [handle_user_input] and the input loop [main]. *)

From Stdlib Require Import NArith String Ascii List Bool Lia.
From stdpp Require Import gmap list.
Import ListNotations.

Local Open Scope N_scope.

(** ** Python text

    A Python [str] is a sequence of Unicode code points; it is modelled as a
    list of code point numbers.  [lit] reads an ASCII literal of the source;
    the few non-ASCII characters of the source's literals are spelled out by
    number where they occur. *)

Definition pystr : Type := list N.

Definition lit (s : string) : pystr :=
  map N_of_ascii (list_ascii_of_string s).

Definition em_dash : N := 8212.          (* U+2014 *)
Definition waving_hand : N := 128075.    (* U+1F44B *)
Definition check_mark : N := 9989.       (* U+2705 *)
Definition newline : N := 10.
Definition at_sign : N := 64.
Definition full_stop : N := 46.

(** The characters [str.strip()] removes when called without argument:
    CPython's [Py_UNICODE_ISSPACE]. *)
Definition isspace (c : N) : bool :=
  ((9 <=? c) && (c <=? 13)) || ((28 <=? c) && (c <=? 32))
  || (c =? 133) || (c =? 160) || (c =? 5760)
  || ((8192 <=? c) && (c <=? 8202))
  || (c =? 8232) || (c =? 8233) || (c =? 8239) || (c =? 8287)
  || (c =? 12288).

Fixpoint lstrip (s : pystr) : pystr :=
  match s with
  | [] => []
  | c :: s' => if isspace c then lstrip s' else s
  end.

Definition rstrip (s : pystr) : pystr := rev (lstrip (rev s)).

(** [s.strip()] *)
Definition strip (s : pystr) : pystr := rstrip (lstrip s).

Fixpoint startswith (p s : pystr) : bool :=
  match p, s with
  | [], _ => true
  | _ :: _, [] => false
  | a :: p', b :: s' => (a =? b) && startswith p' s'
  end.

(** [tok in t] on strings: [tok] occurs in [t] as a contiguous run. *)
Fixpoint str_in (tok t : pystr) : bool :=
  startswith tok t
  || match t with
     | [] => false
     | _ :: t' => str_in tok t'
     end.

(** The same, as a proposition. *)
Definition substring (tok t : pystr) : Prop :=
  exists pre post, t = pre ++ tok ++ post.

(** [any(tok in t for tok in tokens)] *)
Definition any_in (tokens : list pystr) (t : pystr) : bool :=
  existsb (fun tok => str_in tok t) tokens.

(** [str.lower] on text made of ASCII characters: [A]..[Z] go to [a]..[z],
    nothing else changes. *)
Definition ascii_lower (s : pystr) : pystr :=
  map (fun c => if (65 <=? c) && (c <=? 90) then c + 32 else c) s.

(** ** Regular expressions, as far as [EMAIL_RE] needs them *)

Inductive regex : Type :=
| Void                       (* matches nothing; arises in derivatives *)
| Eps                        (* the empty pattern *)
| Lit (c : N)                (* one given character, escaped or not *)
| NotLit (c : N)             (* the class [^c] *)
| Cat (r1 r2 : regex)        (* r1 r2 *)
| Alt (r1 r2 : regex)        (* r1|r2 *)
| Star (r : regex).          (* r* *)

(** [r+] *)
Definition Plus (r : regex) : regex := Cat r (Star r).

Inductive matches : regex -> pystr -> Prop :=
| m_eps : matches Eps []
| m_lit c : matches (Lit c) [c]
| m_notlit c d : d <> c -> matches (NotLit c) [d]
| m_cat r1 r2 s1 s2 :
    matches r1 s1 -> matches r2 s2 -> matches (Cat r1 r2) (s1 ++ s2)
| m_alt_l r1 r2 s : matches r1 s -> matches (Alt r1 r2) s
| m_alt_r r1 r2 s : matches r2 s -> matches (Alt r1 r2) s
| m_star_nil r : matches (Star r) []
| m_star_app r s1 s2 :
    matches r s1 -> matches (Star r) s2 -> matches (Star r) (s1 ++ s2).

Fixpoint nullable (r : regex) : bool :=
  match r with
  | Void | Lit _ | NotLit _ => false
  | Eps | Star _ => true
  | Cat r1 r2 => nullable r1 && nullable r2
  | Alt r1 r2 => nullable r1 || nullable r2
  end.

(** What is left of [r] once the character [c] has been read. *)
Fixpoint deriv (c : N) (r : regex) : regex :=
  match r with
  | Void | Eps => Void
  | Lit d => if c =? d then Eps else Void
  | NotLit d => if c =? d then Void else Eps
  | Cat r1 r2 =>
      if nullable r1
      then Alt (Cat (deriv c r1) r2) (deriv c r2)
      else Cat (deriv c r1) r2
  | Alt r1 r2 => Alt (deriv c r1) (deriv c r2)
  | Star r1 => Cat (deriv c r1) (Star r1)
  end.

(** [bool(r.fullmatch(s))]: the whole of [s] has to be consumed. *)
Definition fullmatch (r : regex) (s : pystr) : bool :=
  nullable (fold_left (fun r c => deriv c r) s r).

(** ** Small validators *)

(** [re.compile(r"[^@]+@[^@]+\.[^@]+")] *)
Definition EMAIL_RE : regex :=
  Cat (Plus (NotLit at_sign))
    (Cat (Lit at_sign)
       (Cat (Plus (NotLit at_sign))
          (Cat (Lit full_stop) (Plus (NotLit at_sign))))).

Definition is_valid_email (s : pystr) : bool := fullmatch EMAIL_RE (strip s).

(** The pattern in the words of the specification: a run of characters
    other than the at sign, the at sign, another such run, a full stop, a
    third such run, covering the whole text. *)
Definition no_at (s : pystr) : Prop := s <> [] /\ Forall (fun c => c <> at_sign) s.

Definition email_shape (s : pystr) : Prop :=
  exists a b c,
    s = a ++ [at_sign] ++ b ++ [full_stop] ++ c /\ no_at a /\ no_at b /\ no_at c.

(** ** What the module is loaded with

    Three things are fixed when [main.py] is imported and never change
    afterwards: the interpreter's case mapping behind [str.lower] (a table of
    the Unicode database, with a rule for the Greek final sigma that looks at
    the neighbours of a character), the knowledge document read from
    [rag_knowledge.json], and the [llm] client, which is [None] when the
    dependency or the key is missing.  They are the fields of [Env]. *)

(** One plan of the knowledge document.  A key that is absent (or [null])
    is [None]; the values are the texts the document holds. *)
Record plan : Type := {
  plan_price : option pystr;
  plan_videos : option pystr;
  plan_resolution : option pystr;
  plan_features : option (list pystr)
}.

Record pricing_section : Type := {
  kb_basic : option plan;
  kb_pro : option plan
}.

Record policies_section : Type := {
  kb_refund : option pystr;
  kb_support : option pystr
}.

Record knowledge : Type := {
  kb_pricing : option pricing_section;
  kb_policies : option policies_section
}.

(** What one call [llm(prompt)] does. *)
Inductive llm_response : Type :=
| resp_str (s : pystr)
    (* returns a plain string *)
| resp_obj (content : option pystr) (as_str : option pystr)
    (* returns an object: its [content] attribute when it has one, and what
       [str(resp)] gives, [None] when that call raises *)
| resp_raise.
    (* raises an [Exception] *)

Class Env : Type := {
  lower : pystr -> pystr;
  KB : knowledge;
  llm : option (pystr -> llm_response)
}.

(** ** Intent detection (high intent first) *)

Inductive intent : Type := high_intent | pricing | greeting | other.

Definition high_intent_tokens : list pystr :=
  [ lit "sign up"; lit "signup"; lit "i want to sign"; lit "i want to try";
    lit "i want to sign up"; lit "i'll take"; lit "i will take";
    lit "i want to subscribe"; lit "subscribe"; lit "buy"; lit "get started";
    lit "get pro"; lit "start trial"; lit "pro plan"; lit "i want the pro";
    lit "i want pro" ].

Definition pricing_tokens : list pystr :=
  [ lit "price"; lit "pricing"; lit "cost"; lit "plan"; lit "features";
    lit "basic plan"; lit "pro plan" ].

Definition greeting_tokens : list pystr :=
  [ lit "hi"; lit "hello"; lit "hey"; lit "good morning"; lit "good evening" ].

Definition detect_intent `{Env} (text : pystr) : intent :=
  let t := lower text in
  if any_in high_intent_tokens t then high_intent
  else if any_in pricing_tokens t then pricing
  else if any_in greeting_tokens t then greeting
  else other.

(** ** Simple retrieval from the knowledge document *)

(** How an f-string renders a value that may be [None]. *)
Definition fmt (v : option pystr) : pystr := default (lit "None") v.

(** [sep.join(parts)] *)
Fixpoint str_join (sep : pystr) (parts : list pystr) : pystr :=
  match parts with
  | [] => []
  | [p] => p
  | p :: rest => p ++ sep ++ str_join sep rest
  end.

(** The empty dictionaries that [.get(key, {})] falls back to. *)
Definition no_plan : plan :=
  {| plan_price := None; plan_videos := None;
     plan_resolution := None; plan_features := None |}.
Definition no_pricing : pricing_section := {| kb_basic := None; kb_pro := None |}.
Definition no_policies : policies_section := {| kb_refund := None; kb_support := None |}.

Definition rag_pricing_answer `{Env} : pystr :=
  let basic := default no_plan (kb_basic (default no_pricing (kb_pricing KB))) in
  let pro := default no_plan (kb_pro (default no_pricing (kb_pricing KB))) in
  let basic_text :=
    lit "Basic Plan: " ++ fmt (plan_price basic) ++ lit " , "
      ++ fmt (plan_videos basic) ++ lit " , " ++ fmt (plan_resolution basic) in
  let pro_text :=
    lit "Pro Plan: " ++ fmt (plan_price pro) ++ lit " , "
      ++ fmt (plan_videos pro) ++ lit " , " ++ fmt (plan_resolution pro) in
  let features := default [] (plan_features pro) in
  let pro_text :=
    match features with
    | [] => pro_text
    | _ :: _ => pro_text ++ lit " (Features: " ++ str_join (lit ", ") features ++ lit ")"
    end in
  basic_text ++ [newline] ++ pro_text.

Definition rag_policy_answer `{Env} : pystr :=
  let pol := default no_policies (kb_policies KB) in
  lit "Refund policy: " ++ fmt (kb_refund pol) ++ lit ". Support: "
    ++ fmt (kb_support pol) ++ lit ".".

(** ** Agent state *)

(** The fields of a lead; the source writes them as the strings ['name'],
    ['email'] and ['platform']. *)
Inductive field : Type := Name | Email | Platform.

#[global] Instance field_eq_dec : EqDecision field.
Proof. solve_decision. Defined.

#[global] Instance field_countable : Countable field.
Proof.
  refine (inj_countable'
            (fun f => match f with Name => 0%nat | Email => 1%nat | Platform => 2%nat end)
            (fun n => match n with 0%nat => Name | 1%nat => Email | _ => Platform end) _).
  intros []; reflexivity.
Defined.

(** One remembered turn, [{"user": ..., "agent": ...}]. *)
Record turn : Type := { user : pystr; agent : pystr }.

(** [collections.deque] with a [maxlen]. *)
Record deque (A : Type) : Type := { maxlen : nat; items : list A }.
Arguments maxlen {A} _.
Arguments items {A} _.

(** [d.append(x)]: the item goes to the right end, and the left end is
    dropped when the length then exceeds [maxlen]. *)
Definition deque_append {A : Type} (d : deque A) (x : A) : deque A :=
  let grown := items d ++ [x] in
  {| maxlen := maxlen d;
     items := if (maxlen d <? length grown)%nat then tail grown else grown |}.

Record AgentState : Type := {
  memory : deque turn;
  lead_data : gmap field pystr;
  awaiting_field : option field
}.

(** [AgentState(history_turns)] *)
Definition new_AgentState (history_turns : nat) : AgentState :=
  {| memory := {| maxlen := history_turns; items := [] |};
     lead_data := ∅;
     awaiting_field := None |}.

(** [state = AgentState()], with the default of six turns. *)
Definition initial_state : AgentState := new_AgentState 6.

(** ** Effects

    The handler works on the global [state] and talks to the outside by
    printing, by calling the mock tool and by calling the [llm] client.  A
    program is a function from the state to a result, the new state and the
    events it caused, each with the state as it was at that moment. *)

Inductive event : Type :=
| ev_print (s : pystr)                             (* [print(s)] *)
| ev_capture (name email platform : option pystr)  (* [mock_lead_capture] is entered *)
| ev_llm (prompt : pystr)                          (* [llm(prompt)] is called *)
| ev_input (prompt : pystr).                       (* [input(prompt)] *)

Definition trace : Type := list (event * AgentState).

Definition prog (A : Type) : Type := AgentState -> A * AgentState * trace.

#[global] Instance prog_ret : MRet prog := fun A a s => (a, s, []).

#[global] Instance prog_bind : MBind prog := fun A B k m s =>
  let '(a, s1, t1) := m s in
  let '(b, s2, t2) := k a s1 in
  (b, s2, t1 ++ t2).

Definition read {A : Type} (f : AgentState -> A) : prog A := fun s => (f s, s, []).

Definition emit (e : event) : prog unit := fun s => (tt, s, [(e, s)]).

Definition print (s : pystr) : prog unit := emit (ev_print s).

(** The three attributes of the state, written one at a time. *)
Definition with_memory (s : AgentState) (m : deque turn) : AgentState :=
  {| memory := m; lead_data := lead_data s; awaiting_field := awaiting_field s |}.

Definition with_lead_data (s : AgentState) (d : gmap field pystr) : AgentState :=
  {| memory := memory s; lead_data := d; awaiting_field := awaiting_field s |}.

Definition with_awaiting_field (s : AgentState) (v : option field) : AgentState :=
  {| memory := memory s; lead_data := lead_data s; awaiting_field := v |}.

(** The state once [save_turn] has run. *)
Definition remember_turn (s : AgentState) (user_text agent_text : pystr) : AgentState :=
  with_memory s (deque_append (memory s) {| user := user_text; agent := agent_text |}).

(** [state.awaiting_field = v] *)
Definition set_awaiting_field (v : option field) : prog unit := fun s =>
  (tt, with_awaiting_field s v, []).

(** [state.lead_data = d] *)
Definition set_lead_data (d : gmap field pystr) : prog unit := fun s =>
  (tt, with_lead_data s d, []).

(** [state.lead_data[f] = v] *)
Definition store_lead_data (f : field) (v : pystr) : prog unit := fun s =>
  (tt, with_lead_data s (<[f := v]> (lead_data s)), []).

(** [state.save_turn(user_text, agent_text)] *)
Definition save_turn (user_text agent_text : pystr) : prog unit := fun s =>
  (tt, remember_turn s user_text agent_text, []).

(** Several turns saved in a row. *)
Fixpoint save_turns (turns : list turn) : prog unit :=
  match turns with
  | [] => mret tt
  | t :: rest => save_turn (user t) (agent t);; save_turns rest
  end.

Definition state_after {A : Type} (p : prog A) (s : AgentState) : AgentState :=
  snd (fst (p s)).
Definition trace_of {A : Type} (p : prog A) (s : AgentState) : trace := snd (p s).
Definition result_of {A : Type} (p : prog A) (s : AgentState) : A := fst (fst (p s)).

(** ** Mock tool *)

Definition mock_lead_capture (name email platform : option pystr) : prog unit :=
  emit (ev_capture name email platform);;
  print ([newline; check_mark] ++ lit " Lead captured successfully: " ++ fmt name
           ++ lit ", " ++ fmt email ++ lit ", " ++ fmt platform ++ [newline]).

Definition choose_next_field (collected : gmap field pystr) : option field :=
  List.find (fun f => negb (bool_decide (is_Some (collected !! f))))
    [Name; Email; Platform].

(** ** LLM fallback *)

Definition llm_unavailable_text : pystr :=
  lit "I can help with pricing or sign-up. Ask 'Tell me about pricing' or 'I want to sign up for Pro'.".

Definition llm_error_text : pystr :=
  lit "Sorry " ++ [em_dash] ++ lit " temporary LLM error. I can still help with pricing or sign-up.".

Definition llm_reply `{Env} (prompt : pystr) : prog pystr :=
  match llm with
  | None => mret llm_unavailable_text
  | Some client =>
      emit (ev_llm prompt);;
      mret (match client prompt with
            | resp_str s => s
            | resp_obj content as_str =>
                (* [getattr(resp, "content", str(resp))]: the default is
                   computed before the attribute is looked up *)
                match as_str with
                | Some shown => default shown content
                | None => llm_error_text
                end
            | resp_raise => llm_error_text
            end)
  end.

(** ** Main handler *)

Definition prompt_map (f : field) : pystr :=
  match f with
  | Name => lit "Great " ++ [em_dash] ++ lit " what's your full name?"
  | Email => lit "Thanks. What's your email?"
  | Platform => lit "Which creator platform do you use? (YouTube, Instagram, etc.)"
  end.

Definition invalid_email_text : pystr :=
  lit "That doesn't look like a valid email. Please provide a valid email address.".

Definition thanks_text (name : option pystr) : pystr :=
  lit "Thanks " ++ fmt name ++ lit "! Submitting your details now...".

Definition final_ack_text : pystr :=
  lit "Done " ++ [em_dash] ++ lit " our team will reach out soon. Would you like a setup guide?".

Definition greeting_text : pystr :=
  [waving_hand] ++ lit " Hi! I can tell you about pricing or help you sign up for Pro.".

Definition start_text : pystr :=
  lit "Awesome " ++ [em_dash] ++ lit " I can help get you started. What's your full name?".

Definition policy_tokens : list pystr := [ lit "refund"; lit "support"; lit "policy" ].

Definition handle_user_input `{Env} (user_text : pystr) : prog unit :=
  let user_text := strip user_text in
  (* lines 141 to 170: what follows once the value is stored *)
  let choose_next : prog unit :=
    collected ← read lead_data;
    match choose_next_field collected with
    | Some next_field =>
        set_awaiting_field (Some next_field);;
        let agent_text := prompt_map next_field in
        save_turn user_text agent_text;;
        print agent_text
    | None =>
        (* all fields collected: call the tool exactly once *)
        name ← read (fun s => lead_data s !! Name);
        email ← read (fun s => lead_data s !! Email);
        platform ← read (fun s => lead_data s !! Platform);
        (* clear the awaiting flag before calling the tool *)
        set_awaiting_field None;;
        let agent_text := thanks_text name in
        save_turn user_text agent_text;;
        print agent_text;;
        mock_lead_capture name email platform;;
        let final_ack := final_ack_text in
        save_turn [] final_ack;;
        print final_ack;;
        set_lead_data ∅
    end in
  awaiting ← read awaiting_field;
  match awaiting with
  | Some field =>
      (* collecting lead details takes priority *)
      if bool_decide (field = Email) then
        if negb (is_valid_email user_text) then
          let agent_text := invalid_email_text in
          save_turn user_text agent_text;;
          print agent_text
        else
          store_lead_data Email (strip user_text);;
          choose_next
      else
        store_lead_data field (strip user_text);;
        choose_next
  | None =>
      (* no active lead flow: detect the intent *)
      match detect_intent user_text with
      | greeting =>
          let agent_text := greeting_text in
          save_turn user_text agent_text;;
          print agent_text
      | pricing =>
          let agent_text :=
            if any_in policy_tokens (lower user_text)
            then rag_policy_answer else rag_pricing_answer in
          save_turn user_text agent_text;;
          print agent_text
      | high_intent =>
          (* start the qualification flow *)
          set_lead_data ∅;;
          set_awaiting_field (Some Name);;
          let agent_text := start_text in
          save_turn user_text agent_text;;
          print agent_text
      | other =>
          (* fallback: free-form reply of the LLM *)
          agent_text ← llm_reply user_text;
          save_turn user_text agent_text;;
          print agent_text
      end
  end.

(** A session seen from the handler: the turns are handled one after the
    other on the same state. *)
Fixpoint handle_all `{Env} (user_texts : list pystr) : prog unit :=
  match user_texts with
  | [] => mret tt
  | user_text :: rest => handle_user_input user_text;; handle_all rest
  end.

(** ** Command line loop

    [lines] are the lines the user types, in order; when they run out,
    [input] raises [EOFError]. *)

Definition banner_text : pystr :=
  [128640] ++ lit " AutoStream AI Agent (Gemini 2.5 Flash) " ++ [em_dash]
    ++ lit " type 'exit' to quit".

Fixpoint main_loop `{Env} (lines : list pystr) : prog unit :=
  match lines with
  | [] =>
      emit (ev_input (lit "User: "));;
      print ([newline] ++ lit "Bye.")
  | line :: rest =>
      emit (ev_input (lit "User: "));;
      let user := strip line in
      match user with
      | [] => main_loop rest
      | _ :: _ =>
          if bool_decide (lower user ∈ [lit "exit"; lit "quit"]) then
            print (lit "Bye.")
          else
            handle_user_input user;;
            main_loop rest
      end
  end.

Definition main `{Env} (lines : list pystr) : prog unit :=
  print banner_text;;
  main_loop lines.

(** The events of a trace, and the calls of the mock tool among them. *)
Definition events (t : trace) : list event := map fst t.

Definition is_capture (e : event) : bool :=
  match e with ev_capture _ _ _ => true | _ => false end.

Definition is_print (e : event) : bool :=
  match e with ev_print _ => true | _ => false end.

Definition is_llm (e : event) : bool :=
  match e with ev_llm _ => true | _ => false end.

Definition captures (t : trace) : trace := List.filter (fun x => is_capture (fst x)) t.

(** A value is stored when a field is awaited and, for the email, the text
    is a valid address. *)
Definition stores (s : AgentState) (user_text : pystr) (f : field) : Prop :=
  awaiting_field s = Some f /\ (f = Email -> is_valid_email user_text = true).

(** What the fallback answers, and the call it makes to get there. *)
Definition llm_text `{Env} (prompt : pystr) : pystr :=
  result_of (llm_reply prompt) initial_state.

Definition llm_calls `{Env} (prompt : pystr) (s : AgentState) : trace :=
  match llm with
  | None => []
  | Some _ => [(ev_llm prompt, s)]
  end.

(** One turn of the dialogue as a relation: from state [s], on the text
    [user_text], the handler reaches the given state and causes the given
    events.  One rule per path through [handle_user_input]. *)
Inductive turn_step `{Env} (s : AgentState) (user_text : pystr) :
  AgentState -> trace -> Prop :=
| step_invalid_email s' :
    awaiting_field s = Some Email ->
    is_valid_email user_text = false ->
    s' = remember_turn s (strip user_text) invalid_email_text ->
    turn_step s user_text s' [(ev_print invalid_email_text, s')]
| step_next_field f next s' :
    stores s user_text f ->
    choose_next_field (<[f := strip user_text]> (lead_data s)) = Some next ->
    s' = remember_turn
           (with_awaiting_field
              (with_lead_data s (<[f := strip user_text]> (lead_data s))) (Some next))
           (strip user_text) (prompt_map next) ->
    turn_step s user_text s' [(ev_print (prompt_map next), s')]
| step_complete f lead name email platform s2 s3 :
    stores s user_text f ->
    lead = <[f := strip user_text]> (lead_data s) ->
    choose_next_field lead = None ->
    name = lead !! Name -> email = lead !! Email -> platform = lead !! Platform ->
    s2 = remember_turn (with_awaiting_field (with_lead_data s lead) None)
           (strip user_text) (thanks_text name) ->
    s3 = remember_turn s2 [] final_ack_text ->
    turn_step s user_text (with_lead_data s3 ∅)
      [ (ev_print (thanks_text name), s2);
        (ev_capture name email platform, s2);
        (ev_print ([newline; check_mark] ++ lit " Lead captured successfully: "
                     ++ fmt name ++ lit ", " ++ fmt email ++ lit ", " ++ fmt platform
                     ++ [newline]), s2);
        (ev_print final_ack_text, s3) ]
| step_greeting s' :
    awaiting_field s = None ->
    detect_intent (strip user_text) = greeting ->
    s' = remember_turn s (strip user_text) greeting_text ->
    turn_step s user_text s' [(ev_print greeting_text, s')]
| step_pricing answer s' :
    awaiting_field s = None ->
    detect_intent (strip user_text) = pricing ->
    answer = (if any_in policy_tokens (lower (strip user_text))
              then rag_policy_answer else rag_pricing_answer) ->
    s' = remember_turn s (strip user_text) answer ->
    turn_step s user_text s' [(ev_print answer, s')]
| step_high_intent s' :
    awaiting_field s = None ->
    detect_intent (strip user_text) = high_intent ->
    s' = remember_turn (with_awaiting_field (with_lead_data s ∅) (Some Name))
           (strip user_text) start_text ->
    turn_step s user_text s' [(ev_print start_text, s')]
| step_other s' :
    awaiting_field s = None ->
    detect_intent (strip user_text) = other ->
    s' = remember_turn s (strip user_text) (llm_text (strip user_text)) ->
    turn_step s user_text s'
      (llm_calls (strip user_text) s ++ [(ev_print (llm_text (strip user_text)), s')]).

(** The states a lead funnel goes through: nothing is kept outside a
    funnel, and inside it the fields before the awaited one are there. *)
Definition funnel_state (s : AgentState) : Prop :=
  match awaiting_field s with
  | None | Some Name => lead_data s = ∅
  | Some Email => exists name, lead_data s = <[Name := name]> ∅
  | Some Platform =>
      exists name email, lead_data s = <[Email := email]> (<[Name := name]> ∅)
  end.

(** The memory holds no more than its [maxlen]. *)
Definition memory_bounded (s : AgentState) : Prop :=
  (length (items (memory s)) <= maxlen (memory s))%nat.

(** No value of the lead is empty. *)
Definition lead_nonblank (s : AgentState) : Prop :=
  map_Forall (fun _ v => v <> []) (lead_data s).

(** The texts the command line loop hands to the handler: blank lines are
    skipped, and [exit] or [quit] ends the session. *)
Fixpoint delivered `{Env} (lines : list pystr) : list pystr :=
  match lines with
  | [] => []
  | line :: rest =>
      match strip line with
      | [] => delivered rest
      | c :: u =>
          if bool_decide (lower (c :: u) ∈ [lit "exit"; lit "quit"]) then []
          else (c :: u) :: delivered rest
      end
  end.

(** How far a funnel has come: the number of turns it took at least to get
    to the state. *)
Definition progress (s : AgentState) : nat :=
  match awaiting_field s with
  | None => 0
  | Some Name => 1
  | Some Email => 2
  | Some Platform => 3
  end.

(** The field asked for after [f], if any. *)
Definition field_after (f : field) : option field :=
  match f with
  | Name => Some Email
  | Email => Some Platform
  | Platform => None
  end.

(** An environment to run examples in: ASCII case mapping, a small knowledge
    document, no [llm] client. *)
Definition example_KB : knowledge :=
  {| kb_pricing := Some
       {| kb_basic := Some {| plan_price := Some (lit "$9");
                              plan_videos := Some (lit "10 videos/month");
                              plan_resolution := Some (lit "720p");
                              plan_features := None |};
          kb_pro := Some {| plan_price := Some (lit "$29");
                            plan_videos := Some (lit "Unlimited videos");
                            plan_resolution := Some (lit "4K");
                            plan_features := Some [lit "AI captions"; lit "Priority support"] |} |};
     kb_policies := Some {| kb_refund := Some (lit "No refunds after 7 days");
                            kb_support := Some (lit "24/7 on Pro") |} |}.

Definition example_env : Env :=
  {| lower := ascii_lower; KB := example_KB; llm := None |}.

(** The same with an empty knowledge document. *)
Definition bare_env : Env :=
  {| lower := ascii_lower;
     KB := {| kb_pricing := None; kb_policies := None |};
     llm := None |}.

(** The same with a client that repeats the prompt. *)
Definition echo_env : Env :=
  {| lower := ascii_lower; KB := example_KB; llm := Some (fun p => resp_str p) |}.

(** The same with a client that always raises. *)
Definition failing_env : Env :=
  {| lower := ascii_lower; KB := example_KB; llm := Some (fun _ => resp_raise) |}.

(** * Properties *)

(** ** Text helpers *)

Lemma startswith_spec (p s : pystr) :
  startswith p s = true <-> exists post, s = p ++ post.
Proof.
  revert s; induction p as [|a p IH]; intros s; simpl.
  - split; [intros _; exists s; reflexivity | reflexivity].
  - destruct s as [|b s].
    + split; [discriminate | intros [post Hpost]; discriminate].
    + rewrite andb_true_iff, N.eqb_eq, IH. split.
      * intros [-> [post ->]]. exists post. reflexivity.
      * intros [post Hpost]. injection Hpost as -> ->. eauto.
Qed.

Lemma str_in_spec (tok t : pystr) : str_in tok t = true <-> substring tok t.
Proof.
  unfold substring. induction t as [|c t IH]; simpl.
  - rewrite orb_false_r, startswith_spec. split.
    + intros [post Hpost]. exists [], post. exact Hpost.
    + intros [pre [post Hpost]]. destruct pre as [|x pre]; [|discriminate].
      exists post. exact Hpost.
  - rewrite orb_true_iff, startswith_spec, IH. split.
    + intros [[post Hpost] | [pre [post Hpost]]].
      * exists [], post. exact Hpost.
      * exists (c :: pre), post. simpl. congruence.
    + intros [pre [post Hpost]]. destruct pre as [|x pre].
      * left. exists post. exact Hpost.
      * right. injection Hpost as _ Hpost. eauto.
Qed.

Lemma any_in_spec (tokens : list pystr) (t : pystr) :
  any_in tokens t = true <-> exists tok, In tok tokens /\ substring tok t.
Proof.
  unfold any_in. rewrite existsb_exists.
  split; intros [tok [Hin Htok]]; exists tok; split; auto; apply str_in_spec; auto.
Qed.

Lemma any_in_false (tokens : list pystr) (t : pystr) :
  any_in tokens t = false <-> forall tok, In tok tokens -> ~ substring tok t.
Proof.
  rewrite <- not_true_iff_false, any_in_spec. split.
  - intros Hno tok Hin Hsub. apply Hno. eauto.
  - intros Hno [tok [Hin Hsub]]. exact (Hno tok Hin Hsub).
Qed.

Lemma lstrip_idem (s : pystr) : lstrip (lstrip s) = lstrip s.
Proof.
  induction s as [|c s IH]; simpl; [reflexivity|].
  destruct (isspace c) eqn:Hc; [exact IH|]. simpl. rewrite Hc. reflexivity.
Qed.

Lemma lstrip_head (s : pystr) :
  lstrip s = [] \/ exists c r, lstrip s = c :: r /\ isspace c = false.
Proof.
  induction s as [|c s IH]; simpl; [left; reflexivity|].
  destruct (isspace c) eqn:Hc; [exact IH|]. right. eauto.
Qed.

Lemma lstrip_app_keeps (l r : pystr) (c : N) :
  isspace c = false -> lstrip (l ++ c :: r) = lstrip l ++ c :: r.
Proof.
  intros Hc. induction l as [|d l IH]; simpl.
  - rewrite Hc. reflexivity.
  - destruct (isspace d); [exact IH | reflexivity].
Qed.

Lemma rstrip_idem (s : pystr) : rstrip (rstrip s) = rstrip s.
Proof. unfold rstrip. rewrite rev_involutive, lstrip_idem. reflexivity. Qed.

Lemma rstrip_cons_keeps (c : N) (r : pystr) :
  isspace c = false -> rstrip (c :: r) = c :: rstrip r.
Proof.
  intros Hc. unfold rstrip. simpl.
  rewrite (lstrip_app_keeps (rev r) [] c Hc), rev_app_distr. reflexivity.
Qed.

Lemma lstrip_rstrip_lstrip (s : pystr) : lstrip (strip s) = strip s.
Proof.
  unfold strip. destruct (lstrip_head s) as [-> | [c [r [-> Hc]]]]; [reflexivity|].
  rewrite rstrip_cons_keeps by exact Hc. simpl. rewrite Hc. reflexivity.
Qed.

(** Trimming twice is trimming once. *)
Lemma strip_idem (s : pystr) : strip (strip s) = strip s.
Proof.
  unfold strip at 1. rewrite lstrip_rstrip_lstrip.
  unfold strip. apply rstrip_idem.
Qed.

(** ** The matcher agrees with the meaning of patterns *)

Lemma matches_cat (r1 r2 : regex) (s : pystr) :
  matches (Cat r1 r2) s <->
  exists s1 s2, s = s1 ++ s2 /\ matches r1 s1 /\ matches r2 s2.
Proof.
  split.
  - intros Hm. inversion Hm; subst. eauto.
  - intros [s1 [s2 [-> [H1 H2]]]]. constructor; assumption.
Qed.

Lemma matches_alt (r1 r2 : regex) (s : pystr) :
  matches (Alt r1 r2) s <-> matches r1 s \/ matches r2 s.
Proof.
  split.
  - intros Hm. inversion Hm; subst; auto.
  - intros [Hm | Hm]; [apply m_alt_l | apply m_alt_r]; exact Hm.
Qed.

Lemma nullable_spec (r : regex) : nullable r = true <-> matches r [].
Proof.
  induction r as [| | c | c | r1 IH1 r2 IH2 | r1 IH1 r2 IH2 | r IH]; simpl.
  - split; [discriminate | intros Hm; inversion Hm].
  - split; [constructor | reflexivity].
  - split; [discriminate | intros Hm; inversion Hm].
  - split; [discriminate | intros Hm; inversion Hm].
  - rewrite andb_true_iff, IH1, IH2, matches_cat. split.
    + intros [H1 H2]. exists [], []. auto.
    + intros [s1 [s2 [Heq [H1 H2]]]].
      symmetry in Heq. apply app_eq_nil in Heq as [-> ->]. auto.
  - rewrite orb_true_iff, IH1, IH2, matches_alt. reflexivity.
  - split; [constructor | reflexivity].
Qed.

(** A non-empty match of [r*] starts with a non-empty match of [r]. *)
Lemma matches_star_cons (r : regex) (c : N) (s : pystr) :
  matches (Star r) (c :: s) ->
  exists s1 s2, s = s1 ++ s2 /\ matches r (c :: s1) /\ matches (Star r) s2.
Proof.
  intros Hm. remember (Star r) as r' eqn:Hr. remember (c :: s) as t eqn:Ht.
  induction Hm as [| | | | | | |r0 s1 s2 H1 _ H2 IH2]; try discriminate.
  injection Hr as ->. destruct s1 as [|d s1].
  - apply IH2; [reflexivity | exact Ht].
  - injection Ht as <- <-. eauto.
Qed.

Lemma deriv_spec (r : regex) (c : N) (s : pystr) :
  matches (deriv c r) s <-> matches r (c :: s).
Proof.
  revert s.
  induction r as [| | d | d | r1 IH1 r2 IH2 | r1 IH1 r2 IH2 | r IH]; intros s; simpl.
  - split; intros Hm; inversion Hm.
  - split; intros Hm; inversion Hm.
  - destruct (N.eqb_spec c d) as [-> | Hne]; split; intros Hm; inversion Hm; subst.
    + constructor.
    + constructor.
    + congruence.
  - destruct (N.eqb_spec c d) as [-> | Hne]; split; intros Hm; inversion Hm; subst.
    + congruence.
    + constructor. exact Hne.
    + constructor.
  - assert (Hcat : matches (Cat (deriv c r1) r2) s <->
                   exists s1 s2, s = s1 ++ s2 /\ matches r1 (c :: s1) /\ matches r2 s2).
    { rewrite matches_cat. split; intros [s1 [s2 [Heq [H1 H2]]]];
        exists s1, s2; (split; [exact Heq|]); split; auto; apply IH1; exact H1. }
    destruct (nullable r1) eqn:Hn.
    + rewrite matches_alt, Hcat, IH2, matches_cat. split.
      * intros [[s1 [s2 [-> [H1 H2]]]] | H2].
        -- exists (c :: s1), s2. auto.
        -- exists [], (c :: s). split; [reflexivity|]. split; [|exact H2].
           apply nullable_spec. exact Hn.
      * intros [s1 [s2 [Heq [H1 H2]]]]. destruct s1 as [|d s1].
        -- right. simpl in Heq. subst s2. exact H2.
        -- injection Heq as <- ->. left. eauto.
    + rewrite Hcat, matches_cat. split.
      * intros [s1 [s2 [-> [H1 H2]]]]. exists (c :: s1), s2. auto.
      * intros [s1 [s2 [Heq [H1 H2]]]]. destruct s1 as [|d s1].
        -- apply nullable_spec in H1. congruence.
        -- injection Heq as <- ->. eauto.
  - rewrite !matches_alt, IH1, IH2. reflexivity.
  - rewrite matches_cat. split.
    + intros [s1 [s2 [-> [H1 H2]]]]. apply IH in H1.
      exact (m_star_app r (c :: s1) s2 H1 H2).
    + intros Hm. apply matches_star_cons in Hm as [s1 [s2 [-> [H1 H2]]]].
      exists s1, s2. split; [reflexivity|]. split; [apply IH; exact H1 | exact H2].
Qed.

Lemma fullmatch_spec (r : regex) (s : pystr) :
  fullmatch r s = true <-> matches r s.
Proof.
  unfold fullmatch. revert r. induction s as [|c s IH]; intros r; simpl.
  - apply nullable_spec.
  - rewrite IH. apply deriv_spec.
Qed.

Lemma matches_star_notlit (x : N) (s : pystr) :
  matches (Star (NotLit x)) s <-> Forall (fun c => c <> x) s.
Proof.
  split.
  - intros Hm. remember (Star (NotLit x)) as r eqn:Hr.
    induction Hm as [| | | | | | |r0 s1 s2 H1 _ H2 IH2]; try discriminate.
    + constructor.
    + injection Hr as ->. inversion H1; subst. constructor; auto.
  - induction 1 as [|c s Hc _ IH]; [constructor|].
    apply (m_star_app (NotLit x) [c] s); [constructor; exact Hc | exact IH].
Qed.

Lemma matches_plus_notlit (s : pystr) :
  matches (Plus (NotLit at_sign)) s <-> no_at s.
Proof.
  unfold Plus, no_at. rewrite matches_cat. split.
  - intros [s1 [s2 [-> [H1 H2]]]]. inversion H1; subst. split; [discriminate|].
    constructor; [assumption | apply matches_star_notlit; exact H2].
  - intros [Hne Hall]. destruct Hall as [|c s Hc Hall]; [congruence|].
    exists [c], s. split; [reflexivity|].
    split; [constructor; exact Hc | apply matches_star_notlit; exact Hall].
Qed.

Lemma matches_lit (c : N) (s : pystr) : matches (Lit c) s <-> s = [c].
Proof. split; [intros Hm; inversion Hm; reflexivity | intros ->; constructor]. Qed.

Lemma matches_EMAIL_RE (s : pystr) : matches EMAIL_RE s <-> email_shape s.
Proof.
  unfold EMAIL_RE, email_shape. split.
  - intros Hm.
    apply matches_cat in Hm as [a [s1 [-> [Ha Hm]]]].
    apply matches_cat in Hm as [x [s2 [-> [Hx Hm]]]].
    apply matches_cat in Hm as [b [s3 [-> [Hb Hm]]]].
    apply matches_cat in Hm as [y [c [-> [Hy Hc]]]].
    apply matches_lit in Hx as ->. apply matches_lit in Hy as ->.
    exists a, b, c. rewrite <- !matches_plus_notlit. auto.
  - intros [a [b [c [-> [Ha [Hb Hc]]]]]].
    repeat (apply m_cat; [first [apply matches_plus_notlit; assumption | constructor] |]).
    apply matches_plus_notlit. exact Hc.
Qed.

Lemma is_valid_email_spec (s : pystr) :
  is_valid_email s = true <-> email_shape (strip s).
Proof. unfold is_valid_email. rewrite fullmatch_spec. apply matches_EMAIL_RE. Qed.

Lemma is_valid_email_strip (s : pystr) :
  is_valid_email (strip s) = is_valid_email s.
Proof. unfold is_valid_email. rewrite strip_idem. reflexivity. Qed.

(** A valid address is not blank. *)
Lemma valid_email_nonblank (s : pystr) : is_valid_email s = true -> strip s <> [].
Proof.
  intros Hv. apply is_valid_email_spec in Hv as [a [b [c [Heq [[Ha _] _]]]]].
  rewrite Heq. destruct a; [congruence | discriminate].
Qed.

(** ** Field validator *)

(** C5. [is_valid_email] holds exactly when the whole trimmed text has the
    shape: characters other than the at sign (at least one), the at sign,
    characters other than the at sign (at least one), a full stop,
    characters other than the at sign (at least one).  It accepts
    [a@b.com], rejects [not-an-email], accepts [ a@b.co ] with its
    surrounding blanks, and gives the same answer on a text and on the
    trimmed text. *)
Theorem is_valid_email_pattern :
  (forall s, is_valid_email s = true <-> email_shape (strip s))
  /\ is_valid_email (lit "a@b.com") = true
  /\ is_valid_email (lit "not-an-email") = false
  /\ is_valid_email (lit " a@b.co ") = true
  /\ (forall s, is_valid_email (strip s) = is_valid_email s).
Proof.
  split; [exact is_valid_email_spec|].
  repeat split; try reflexivity. exact is_valid_email_strip.
Qed.

(** ** Intent classifier *)

(** C3. A text whose lowercase form contains a high-intent keyword and a
    pricing keyword is classified [high_intent]: that group is tried
    first. *)
Theorem high_intent_priority `{Env} (text : pystr) :
  (exists tok, In tok high_intent_tokens /\ substring tok (lower text)) ->
  (exists tok, In tok pricing_tokens /\ substring tok (lower text)) ->
  detect_intent text = high_intent.
Proof.
  intros Hhigh _. unfold detect_intent.
  apply any_in_spec in Hhigh. rewrite Hhigh. reflexivity.
Qed.

Lemma high_intent_priority_witness :
  (exists tok, In tok high_intent_tokens
     /\ substring tok (ascii_lower (lit "I want to sign up, what's the price?")))
  /\ (exists tok, In tok pricing_tokens
        /\ substring tok (ascii_lower (lit "I want to sign up, what's the price?")))
  /\ detect_intent (H := example_env) (lit "I want to sign up, what's the price?")
     = high_intent.
Proof.
  assert (Hhigh : exists tok, In tok high_intent_tokens
     /\ substring tok (ascii_lower (lit "I want to sign up, what's the price?"))).
  { apply any_in_spec. vm_compute. reflexivity. }
  assert (Hprice : exists tok, In tok pricing_tokens
     /\ substring tok (ascii_lower (lit "I want to sign up, what's the price?"))).
  { apply any_in_spec. vm_compute. reflexivity. }
  split; [exact Hhigh|]. split; [exact Hprice|].
  exact (high_intent_priority (H := example_env) _ Hhigh Hprice).
Defined.

(** The classifier returns the first group that has a token in the text. *)
Lemma detect_intent_greeting `{Env} (text : pystr) :
  any_in high_intent_tokens (lower text) = false ->
  any_in pricing_tokens (lower text) = false ->
  any_in greeting_tokens (lower text) = true ->
  detect_intent text = greeting.
Proof. intros Hh Hp Hg. unfold detect_intent. rewrite Hh, Hp, Hg. reflexivity. Qed.

(** ** Running the handler *)

Ltac run_handler :=
  cbv beta iota zeta delta
    [handle_user_input llm_reply mock_lead_capture save_turn print emit
     read set_awaiting_field set_lead_data store_lead_data
     mbind mret prog_bind prog_ret].

Ltac step_handler :=
  cbv beta iota zeta;
  cbn [negb lead_data memory awaiting_field with_lead_data with_awaiting_field
       with_memory app].

(** The handler's turn, branch by branch. *)

Lemma handle_invalid_email `{Env} (s : AgentState) (user_text : pystr) :
  awaiting_field s = Some Email ->
  is_valid_email user_text = false ->
  let s' := remember_turn s (strip user_text) invalid_email_text in
  handle_user_input user_text s = (tt, s', [(ev_print invalid_email_text, s')]).
Proof.
  intros Haw Hbad. run_handler.
  rewrite Haw. step_handler.
  rewrite bool_decide_eq_true_2, is_valid_email_strip, Hbad by reflexivity.
  reflexivity.
Qed.

Lemma handle_next_field `{Env} (s : AgentState) (user_text : pystr) (f next : field) :
  stores s user_text f ->
  choose_next_field (<[f := strip user_text]> (lead_data s)) = Some next ->
  let s' :=
    remember_turn
      (with_awaiting_field
         (with_lead_data s (<[f := strip user_text]> (lead_data s))) (Some next))
      (strip user_text) (prompt_map next) in
  handle_user_input user_text s = (tt, s', [(ev_print (prompt_map next), s')]).
Proof.
  intros [Haw Hok] Hnext. run_handler. rewrite Haw. step_handler.
  rewrite strip_idem.
  destruct (bool_decide (f = Email)) eqn:Hf.
  - apply bool_decide_eq_true in Hf. subst f.
    rewrite is_valid_email_strip, Hok by reflexivity. step_handler.
    rewrite Hnext. reflexivity.
  - step_handler. rewrite Hnext. reflexivity.
Qed.

Lemma handle_complete `{Env} (s : AgentState) (user_text : pystr) (f : field) :
  stores s user_text f ->
  let lead := <[f := strip user_text]> (lead_data s) in
  choose_next_field lead = None ->
  let name := lead !! Name in
  let email := lead !! Email in
  let platform := lead !! Platform in
  let s1 := with_awaiting_field (with_lead_data s lead) None in
  let s2 := remember_turn s1 (strip user_text) (thanks_text name) in
  let s3 := remember_turn s2 [] final_ack_text in
  handle_user_input user_text s =
    (tt, with_lead_data s3 ∅,
     [ (ev_print (thanks_text name), s2);
       (ev_capture name email platform, s2);
       (ev_print ([newline; check_mark] ++ lit " Lead captured successfully: "
                    ++ fmt name ++ lit ", " ++ fmt email ++ lit ", " ++ fmt platform
                    ++ [newline]), s2);
       (ev_print final_ack_text, s3) ]).
Proof.
  intros [Haw Hok] lead Hnext. subst lead. run_handler. rewrite Haw. step_handler.
  rewrite strip_idem.
  destruct (bool_decide (f = Email)) eqn:Hf.
  - apply bool_decide_eq_true in Hf. subst f.
    rewrite is_valid_email_strip, Hok by reflexivity. step_handler.
    rewrite Hnext. reflexivity.
  - step_handler. rewrite Hnext. reflexivity.
Qed.

(** C4. While the email is awaited, a text that is not a valid address gets
    the fixed reminder and nothing else: the field awaited and the lead are
    as before, and the turn (the trimmed text and the reminder) is appended
    to the memory. *)
Theorem invalid_email_reprompt `{Env} (s : AgentState) (user_text : pystr) :
  awaiting_field s = Some Email ->
  is_valid_email user_text = false ->
  let reminder :=
    lit "That doesn't look like a valid email. Please provide a valid email address." in
  let s' := state_after (handle_user_input user_text) s in
  events (trace_of (handle_user_input user_text) s) = [ev_print reminder]
  /\ awaiting_field s' = Some Email
  /\ lead_data s' = lead_data s
  /\ memory s' = deque_append (memory s) {| user := strip user_text; agent := reminder |}.
Proof.
  intros Haw Hbad. unfold state_after, trace_of, events.
  rewrite (handle_invalid_email s user_text Haw Hbad).
  repeat split; try reflexivity. exact Haw.
Qed.

Lemma llm_reply_state `{Env} (prompt : pystr) (s : AgentState) :
  llm_reply prompt s = (llm_text prompt, s, llm_calls prompt s).
Proof.
  unfold llm_text, llm_calls, result_of. run_handler.
  destruct llm as [client|]; reflexivity.
Qed.

Lemma handle_greeting `{Env} (s : AgentState) (user_text : pystr) :
  awaiting_field s = None ->
  detect_intent (strip user_text) = greeting ->
  let s' := remember_turn s (strip user_text) greeting_text in
  handle_user_input user_text s = (tt, s', [(ev_print greeting_text, s')]).
Proof.
  intros Haw Hint. cbv beta iota zeta delta [handle_user_input read mbind prog_bind].
  rewrite Haw, Hint. reflexivity.
Qed.

Lemma handle_pricing `{Env} (s : AgentState) (user_text : pystr) :
  awaiting_field s = None ->
  detect_intent (strip user_text) = pricing ->
  let answer := if any_in policy_tokens (lower (strip user_text))
                then rag_policy_answer else rag_pricing_answer in
  let s' := remember_turn s (strip user_text) answer in
  handle_user_input user_text s = (tt, s', [(ev_print answer, s')]).
Proof.
  intros Haw Hint. cbv beta iota zeta delta [handle_user_input read mbind prog_bind].
  rewrite Haw, Hint. reflexivity.
Qed.

Lemma handle_high_intent `{Env} (s : AgentState) (user_text : pystr) :
  awaiting_field s = None ->
  detect_intent (strip user_text) = high_intent ->
  let s' := remember_turn (with_awaiting_field (with_lead_data s ∅) (Some Name))
              (strip user_text) start_text in
  handle_user_input user_text s = (tt, s', [(ev_print start_text, s')]).
Proof.
  intros Haw Hint. cbv beta iota zeta delta [handle_user_input read mbind prog_bind].
  rewrite Haw, Hint. reflexivity.
Qed.

Lemma handle_other `{Env} (s : AgentState) (user_text : pystr) :
  awaiting_field s = None ->
  detect_intent (strip user_text) = other ->
  let reply := llm_text (strip user_text) in
  let s' := remember_turn s (strip user_text) reply in
  handle_user_input user_text s =
    (tt, s', llm_calls (strip user_text) s ++ [(ev_print reply, s')]).
Proof.
  intros Haw Hint. cbv beta iota zeta delta [handle_user_input read mbind prog_bind].
  rewrite Haw, Hint. cbv beta iota zeta. rewrite llm_reply_state.
  cbv beta iota zeta delta [save_turn print emit mbind prog_bind].
  rewrite app_nil_l. reflexivity.
Qed.

(** The handler takes exactly the steps of [turn_step]. *)
Lemma handle_user_input_step `{Env} (s : AgentState) (user_text : pystr) :
  turn_step s user_text
    (state_after (handle_user_input user_text) s)
    (trace_of (handle_user_input user_text) s).
Proof.
  unfold state_after, trace_of.
  destruct (awaiting_field s) as [f|] eqn:Haw.
  - destruct (decide (f = Email /\ is_valid_email user_text = false)) as [[-> Hbad]|Hok].
    + rewrite (handle_invalid_email s user_text Haw Hbad).
      eapply step_invalid_email; eauto.
    + assert (Hst : stores s user_text f).
      { split; [exact Haw|]. intros ->.
        destruct (is_valid_email user_text); [reflexivity | tauto]. }
      destruct (choose_next_field (<[f := strip user_text]> (lead_data s)))
        as [next|] eqn:Hnext.
      * rewrite (handle_next_field s user_text f next Hst Hnext).
        eapply step_next_field; eauto.
      * rewrite (handle_complete s user_text f Hst Hnext).
        eapply step_complete; eauto.
  - destruct (detect_intent (strip user_text)) eqn:Hint.
    + rewrite (handle_high_intent s user_text Haw Hint). eapply step_high_intent; eauto.
    + rewrite (handle_pricing s user_text Haw Hint). eapply step_pricing; eauto.
    + rewrite (handle_greeting s user_text Haw Hint). eapply step_greeting; eauto.
    + rewrite (handle_other s user_text Haw Hint). eapply step_other; eauto.
Qed.

(** ** Sequencing *)

Lemma state_after_bind {A B : Type} (m : prog A) (k : A -> prog B) (s : AgentState) :
  state_after (m ≫= k) s = state_after (k (result_of m s)) (state_after m s).
Proof.
  unfold state_after, result_of, mbind, prog_bind.
  destruct (m s) as [[a s1] t1]. cbn [fst snd].
  destruct (k a s1) as [[b s2] t2]. reflexivity.
Qed.

Lemma trace_of_bind {A B : Type} (m : prog A) (k : A -> prog B) (s : AgentState) :
  trace_of (m ≫= k) s
  = trace_of m s ++ trace_of (k (result_of m s)) (state_after m s).
Proof.
  unfold trace_of, state_after, result_of, mbind, prog_bind.
  destruct (m s) as [[a s1] t1]. cbn [fst snd].
  destruct (k a s1) as [[b s2] t2]. reflexivity.
Qed.

Lemma state_after_cons `{Env} (t : pystr) (rest : list pystr) (s : AgentState) :
  state_after (handle_all (t :: rest)) s
  = state_after (handle_all rest) (state_after (handle_user_input t) s).
Proof. cbn [handle_all]. apply state_after_bind. Qed.

Lemma trace_of_cons `{Env} (t : pystr) (rest : list pystr) (s : AgentState) :
  trace_of (handle_all (t :: rest)) s
  = trace_of (handle_user_input t) s
      ++ trace_of (handle_all rest) (state_after (handle_user_input t) s).
Proof. cbn [handle_all]. apply trace_of_bind. Qed.

Lemma state_after_app `{Env} (l1 l2 : list pystr) (s : AgentState) :
  state_after (handle_all (l1 ++ l2)) s
  = state_after (handle_all l2) (state_after (handle_all l1) s).
Proof.
  revert s. induction l1 as [|t l1 IH]; intros s; [reflexivity|].
  cbn [app]. rewrite !state_after_cons. apply IH.
Qed.

Lemma trace_of_app `{Env} (l1 l2 : list pystr) (s : AgentState) :
  trace_of (handle_all (l1 ++ l2)) s
  = trace_of (handle_all l1) s
      ++ trace_of (handle_all l2) (state_after (handle_all l1) s).
Proof.
  revert s. induction l1 as [|t l1 IH]; intros s; [reflexivity|].
  cbn [app]. rewrite !trace_of_cons, !state_after_cons, IH. apply app_assoc.
Qed.

Lemma captures_app (t1 t2 : trace) : captures (t1 ++ t2) = captures t1 ++ captures t2.
Proof. apply List.filter_app. Qed.

(** ** Which field comes next *)

Lemma choose_next_field_None (collected : gmap field pystr) :
  choose_next_field collected = None <->
  is_Some (collected !! Name) /\ is_Some (collected !! Email)
  /\ is_Some (collected !! Platform).
Proof.
  unfold choose_next_field. cbn [find].
  repeat case_bool_decide; cbn [negb]; split; try discriminate; tauto.
Qed.

Lemma choose_next_after_name (v : pystr) :
  choose_next_field (<[Name := v]> ∅) = Some Email.
Proof. reflexivity. Qed.

Lemma choose_next_after_email (name v : pystr) :
  choose_next_field (<[Email := v]> (<[Name := name]> ∅)) = Some Platform.
Proof. reflexivity. Qed.

Lemma choose_next_after_platform (name email v : pystr) :
  choose_next_field (<[Platform := v]> (<[Email := email]> (<[Name := name]> ∅))) = None.
Proof. reflexivity. Qed.

(** ** What a turn does to the funnel *)

Lemma turn_high_intent `{Env} (s : AgentState) (user_text : pystr) :
  awaiting_field s = None ->
  detect_intent (strip user_text) = high_intent ->
  awaiting_field (state_after (handle_user_input user_text) s) = Some Name
  /\ lead_data (state_after (handle_user_input user_text) s) = ∅
  /\ captures (trace_of (handle_user_input user_text) s) = [].
Proof.
  intros Haw Hint. unfold state_after, trace_of.
  rewrite (handle_high_intent s user_text Haw Hint). auto.
Qed.

Lemma turn_invalid_email `{Env} (s : AgentState) (user_text : pystr) :
  awaiting_field s = Some Email ->
  is_valid_email user_text = false ->
  awaiting_field (state_after (handle_user_input user_text) s) = Some Email
  /\ lead_data (state_after (handle_user_input user_text) s) = lead_data s
  /\ captures (trace_of (handle_user_input user_text) s) = [].
Proof.
  intros Haw Hbad. unfold state_after, trace_of.
  rewrite (handle_invalid_email s user_text Haw Hbad). auto.
Qed.

Lemma turn_next_field `{Env} (s : AgentState) (user_text : pystr) (f next : field) :
  stores s user_text f ->
  choose_next_field (<[f := strip user_text]> (lead_data s)) = Some next ->
  awaiting_field (state_after (handle_user_input user_text) s) = Some next
  /\ lead_data (state_after (handle_user_input user_text) s)
     = <[f := strip user_text]> (lead_data s)
  /\ captures (trace_of (handle_user_input user_text) s) = [].
Proof.
  intros Hst Hnext. unfold state_after, trace_of.
  rewrite (handle_next_field s user_text f next Hst Hnext). auto.
Qed.

Lemma turn_complete `{Env} (s : AgentState) (user_text : pystr) (f : field) :
  stores s user_text f ->
  let lead := <[f := strip user_text]> (lead_data s) in
  choose_next_field lead = None ->
  awaiting_field (state_after (handle_user_input user_text) s) = None
  /\ lead_data (state_after (handle_user_input user_text) s) = ∅
  /\ exists st,
       captures (trace_of (handle_user_input user_text) s)
       = [(ev_capture (lead !! Name) (lead !! Email) (lead !! Platform), st)]
       /\ lead_data st = lead /\ awaiting_field st = None.
Proof.
  intros Hst lead Hnext. unfold state_after, trace_of.
  rewrite (handle_complete s user_text f Hst Hnext).
  split; [reflexivity|]. split; [reflexivity|]. eexists. split; [reflexivity|]. auto.
Qed.

(** Addresses that are turned down leave the funnel where it is. *)
Lemma rejected_emails_keep `{Env} (rejected : list pystr) (s : AgentState) :
  awaiting_field s = Some Email ->
  Forall (fun t => is_valid_email t = false) rejected ->
  awaiting_field (state_after (handle_all rejected) s) = Some Email
  /\ lead_data (state_after (handle_all rejected) s) = lead_data s
  /\ captures (trace_of (handle_all rejected) s) = [].
Proof.
  intros Haw Hall. revert s Haw.
  induction Hall as [|t rejected Ht _ IH]; intros s Haw; [auto|].
  destruct (turn_invalid_email s t Haw Ht) as [Haw1 [Hlead1 Hcap1]].
  destruct (IH _ Haw1) as [Haw2 [Hlead2 Hcap2]].
  rewrite state_after_cons, trace_of_cons, captures_app, Hcap1, Hcap2.
  split; [exact Haw2|]. split; [congruence | reflexivity].
Qed.

(** ** Lead capture *)

(** The funnel seen from the handler.  A funnel is a high-intent turn from
    the idle state, a name, any number of texts turned down as addresses, a
    valid address and a platform.  When the name and the platform are not
    blank, the mock tool is called exactly once in the funnel, on its last
    turn and not before, with the three trimmed values; at that moment
    [lead_data] holds the three fields, none of them empty. *)
Theorem funnel_captures_once `{Env} (s : AgentState)
    (start name_text email_text platform_text : pystr) (rejected : list pystr) :
  awaiting_field s = None ->
  detect_intent (strip start) = high_intent ->
  strip name_text <> [] ->
  Forall (fun t => is_valid_email t = false) rejected ->
  is_valid_email email_text = true ->
  strip platform_text <> [] ->
  let before := start :: name_text :: rejected ++ [email_text] in
  let lead : gmap field pystr :=
    <[Platform := strip platform_text]>
      (<[Email := strip email_text]> (<[Name := strip name_text]> ∅)) in
  captures (trace_of (handle_all before) s) = []
  /\ exists st,
       captures (trace_of (handle_all (before ++ [platform_text])) s)
       = [(ev_capture (Some (strip name_text)) (Some (strip email_text))
             (Some (strip platform_text)), st)]
       /\ lead_data st = lead
       /\ dom lead = {[Name; Email; Platform]}
       /\ map_Forall (fun _ v => v <> []) lead.
Proof.
  intros Haw Hint Hname Hrej Hemail Hplat before lead.
  destruct (turn_high_intent s start Haw Hint) as [Haw1 [Hlead1 Hcap1]].
  set (s1 := state_after (handle_user_input start) s) in *.
  assert (Hst1 : stores s1 name_text Name) by (split; [exact Haw1 | discriminate]).
  destruct (turn_next_field s1 name_text Name Email Hst1) as [Haw2 [Hlead2 Hcap2]].
  { rewrite Hlead1. reflexivity. }
  set (s2 := state_after (handle_user_input name_text) s1) in *.
  destruct (rejected_emails_keep rejected s2 Haw2 Hrej) as [Haw3 [Hlead3 Hcap3]].
  set (s3 := state_after (handle_all rejected) s2) in *.
  assert (Hst3 : stores s3 email_text Email) by (split; [exact Haw3 | auto]).
  destruct (turn_next_field s3 email_text Email Platform Hst3) as [Haw4 [Hlead4 Hcap4]].
  { rewrite Hlead3, Hlead2, Hlead1. reflexivity. }
  set (s4 := state_after (handle_user_input email_text) s3) in *.
  assert (Hbefore_state : state_after (handle_all before) s = s4).
  { unfold before. rewrite !state_after_cons, state_after_app, state_after_cons.
    reflexivity. }
  assert (Hbefore : captures (trace_of (handle_all before) s) = []).
  { unfold before.
    rewrite !trace_of_cons, trace_of_app, trace_of_cons, !captures_app.
    fold s1. fold s2. fold s3. rewrite Hcap1, Hcap2, Hcap3, Hcap4. reflexivity. }
  split; [exact Hbefore|].
  assert (Hst4 : stores s4 platform_text Platform)
    by (split; [exact Haw4 | discriminate]).
  assert (Hlead : <[Platform := strip platform_text]> (lead_data s4) = lead).
  { rewrite Hlead4, Hlead3, Hlead2, Hlead1. reflexivity. }
  destruct (turn_complete s4 platform_text Platform Hst4)
    as [_ [_ [st [Hcap [Hst Hst_aw]]]]].
  { rewrite Hlead. reflexivity. }
  exists st.
  rewrite trace_of_app, captures_app, Hbefore, Hbefore_state, trace_of_cons, captures_app.
  rewrite Hcap, Hlead. cbn [handle_all].
  split; [reflexivity|]. split; [congruence|]. split.
  - unfold lead. rewrite !dom_insert_L, dom_empty_L. set_solver.
  - unfold lead. repeat (apply map_Forall_insert_2; [try assumption|]).
    + apply valid_email_nonblank. exact Hemail.
    + apply map_Forall_empty.
Qed.

Lemma funnel_captures_once_witness :
  let start := lit "I want to sign up" in
  let name_text := lit "Jane Doe" in
  let rejected := [lit "not-an-email"] in
  let email_text := lit "jane@doe.com" in
  let platform_text := lit "YouTube" in
  let before := start :: name_text :: rejected ++ [email_text] in
  captures (trace_of (handle_all (H := example_env) before) initial_state) = []
  /\ exists st,
       captures (trace_of (handle_all (H := example_env) (before ++ [platform_text]))
                   initial_state)
       = [(ev_capture (Some (lit "Jane Doe")) (Some (lit "jane@doe.com"))
             (Some (lit "YouTube")), st)]
       /\ lead_data st
          = <[Platform := lit "YouTube"]>
              (<[Email := lit "jane@doe.com"]> (<[Name := lit "Jane Doe"]> ∅)).
Proof.
  intros start name_text rejected email_text platform_text before.
  destruct (funnel_captures_once (H := example_env) initial_state
              start name_text email_text platform_text rejected)
    as [Hbefore [st [Hcap [Hlead _]]]].
  - reflexivity.
  - vm_compute. reflexivity.
  - vm_compute. discriminate.
  - repeat constructor.
  - vm_compute. reflexivity.
  - vm_compute. discriminate.
  - split; [exact Hbefore|]. exists st. split; [exact Hcap | exact Hlead].
Defined.


(** C2. Whenever the mock tool is called in a turn, [awaiting_field] is
    already [None] at the moment of the call, and the state the turn ends in
    has [awaiting_field] at [None] and an empty [lead_data].  The call does
    happen on the turn that completes a funnel, that is when the platform
    is awaited and the name and the email are there. *)
Theorem awaiting_cleared_before_capture `{Env} (s : AgentState) (user_text : pystr) :
  let s' := state_after (handle_user_input user_text) s in
  let tr := trace_of (handle_user_input user_text) s in
  (forall e st, In (e, st) tr -> is_capture e = true ->
     awaiting_field st = None /\ awaiting_field s' = None /\ lead_data s' = ∅)
  /\ (awaiting_field s = Some Platform ->
      is_Some (lead_data s !! Name) -> is_Some (lead_data s !! Email) ->
      exists name email st,
        captures tr
        = [(ev_capture (Some name) (Some email) (Some (strip user_text)), st)]
        /\ lead_data s !! Name = Some name /\ lead_data s !! Email = Some email
        /\ awaiting_field st = None /\ awaiting_field s' = None /\ lead_data s' = ∅).
Proof.
  intros s' tr. split.
  - intros e st Hin Hcap.
    pose proof (handle_user_input_step s user_text) as Hstep.
    fold s' tr in Hstep.
    destruct Hstep; subst;
      try (apply in_app_or in Hin as [Hin|Hin];
           [unfold llm_calls in Hin; destruct llm|]);
      repeat (destruct Hin as [Hin|Hin]; [inversion Hin; subst; try discriminate|]);
      try contradiction; auto.
  - intros Haw [name Hname] [email Hemail].
    assert (Hst : stores s user_text Platform) by (split; [exact Haw | discriminate]).
    destruct (turn_complete s user_text Platform Hst)
      as [Haw' [Hlead' [st [Hcap [_ Hst_aw]]]]].
    { apply choose_next_field_None.
      rewrite !lookup_insert_ne by discriminate. rewrite lookup_insert_eq. eauto. }
    rewrite !lookup_insert_ne in Hcap by discriminate.
    rewrite lookup_insert_eq, Hname, Hemail in Hcap.
    exists name, email, st. repeat split; assumption.
Qed.

Lemma awaiting_cleared_before_capture_witness :
  let s := {| memory := {| maxlen := 6; items := [] |};
              lead_data := <[Email := lit "jane@doe.com"]> (<[Name := lit "Jane Doe"]> ∅);
              awaiting_field := Some Platform |} in
  awaiting_field s = Some Platform
  /\ exists st,
       captures (trace_of (handle_user_input (H := example_env) (lit "YouTube")) s)
       = [(ev_capture (Some (lit "Jane Doe")) (Some (lit "jane@doe.com"))
             (Some (lit "YouTube")), st)]
       /\ awaiting_field st = None.
Proof.
  intros s. split; [reflexivity|].
  destruct (awaiting_cleared_before_capture (H := example_env) s (lit "YouTube"))
    as [_ Hfires].
  destruct Hfires as [name [email [st [Hcap [Hname [Hemail [Hst _]]]]]]].
  - reflexivity.
  - vm_compute. eauto.
  - vm_compute. eauto.
  - exists st. split; [|exact Hst].
    vm_compute in Hname. vm_compute in Hemail.
    injection Hname as <-. injection Hemail as <-. exact Hcap.
Defined.

(** C7. On the turn that completes the funnel the handler says three
    things, in this order: the thanks with the name, the tool's own
    confirmation line, the closing line.  The tool is called between the
    first and the second.  The memory gets two new entries: the thanks
    against the user's text and the closing line against the empty text;
    the confirmation line is not saved. *)
Theorem completing_turn_utterances `{Env} (s : AgentState)
    (user_text name email : pystr) :
  awaiting_field s = Some Platform ->
  lead_data s !! Name = Some name ->
  lead_data s !! Email = Some email ->
  let platform := strip user_text in
  let ack := lit "Thanks " ++ name ++ lit "! Submitting your details now..." in
  let confirmation :=
    [10; 9989] ++ lit " Lead captured successfully: " ++ name ++ lit ", "
      ++ email ++ lit ", " ++ platform ++ [10] in
  let closing :=
    lit "Done " ++ [8212]
      ++ lit " our team will reach out soon. Would you like a setup guide?" in
  let tr := trace_of (handle_user_input user_text) s in
  events tr = [ ev_print ack; ev_capture (Some name) (Some email) (Some platform);
                ev_print confirmation; ev_print closing ]
  /\ List.filter is_print (events tr)
     = [ev_print ack; ev_print confirmation; ev_print closing]
  /\ memory (state_after (handle_user_input user_text) s)
     = deque_append
         (deque_append (memory s) {| user := platform; agent := ack |})
         {| user := []; agent := closing |}.
Proof.
  intros Haw Hname Hemail platform ack confirmation closing tr.
  assert (Hst : stores s user_text Platform) by (split; [exact Haw | discriminate]).
  assert (Hnone : choose_next_field (<[Platform := strip user_text]> (lead_data s)) = None).
  { apply choose_next_field_None.
    rewrite !lookup_insert_ne by discriminate. rewrite lookup_insert_eq. eauto. }
  subst tr. unfold trace_of, state_after.
  rewrite (handle_complete s user_text Platform Hst Hnone).
  rewrite !lookup_insert_ne by discriminate.
  rewrite lookup_insert_eq, Hname, Hemail.
  repeat split.
Qed.

Lemma completing_turn_utterances_witness :
  let s := {| memory := {| maxlen := 6; items := [] |};
              lead_data := <[Email := lit "jane@doe.com"]> (<[Name := lit "Jane Doe"]> ∅);
              awaiting_field := Some Platform |} in
  awaiting_field s = Some Platform
  /\ items (memory (state_after (handle_user_input (H := example_env) (lit "YouTube")) s))
     = [ {| user := lit "YouTube";
            agent := lit "Thanks Jane Doe! Submitting your details now..." |};
         {| user := [];
            agent := lit "Done " ++ [8212]
              ++ lit " our team will reach out soon. Would you like a setup guide?" |} ].
Proof.
  intros s. split; [reflexivity|].
  destruct (completing_turn_utterances (H := example_env) s (lit "YouTube")
              (lit "Jane Doe") (lit "jane@doe.com")) as [_ [_ Hmem]];
    [reflexivity | reflexivity | reflexivity |].
  rewrite Hmem. reflexivity.
Defined.

(** ** The bounded memory *)

Lemma deque_append_maxlen {A : Type} (d : deque A) (x : A) :
  maxlen (deque_append d x) = maxlen d.
Proof. reflexivity. Qed.

Lemma deque_append_length {A : Type} (d : deque A) (x : A) :
  (length (items d) <= maxlen d)%nat ->
  (length (items (deque_append d x)) <= maxlen d)%nat.
Proof.
  intros Hb. unfold deque_append. cbn [items].
  assert (Hlen : length (items d ++ [x]) = S (length (items d)))
    by (rewrite length_app; cbn [length]; lia).
  destruct (Nat.ltb_spec (maxlen d) (length (items d ++ [x]))) as [Hlt|Hge].
  - destruct (items d ++ [x]); cbn [tail length] in *; lia.
  - exact Hge.
Qed.

Lemma deque_append_bounded {A : Type} (d : deque A) (x : A) :
  (length (items d) <= maxlen d)%nat ->
  (length (items (deque_append d x)) <= maxlen (deque_append d x))%nat.
Proof. rewrite deque_append_maxlen. apply deque_append_length. Qed.

Lemma deque_append_items {A : Type} (d : deque A) (x : A) :
  (length (items d) <= maxlen d)%nat ->
  items (deque_append d x)
  = drop (length (items d ++ [x]) - maxlen d) (items d ++ [x]).
Proof.
  intros Hb. unfold deque_append. cbn [items].
  rewrite length_app in *. cbn [length] in *.
  destruct (Nat.ltb_spec (maxlen d) (length (items d) + 1)) as [Hlt|Hge].
  - replace (length (items d) + 1 - maxlen d)%nat with 1%nat by lia.
    destruct (items d ++ [x]); reflexivity.
  - replace (length (items d) + 1 - maxlen d)%nat with 0%nat by lia. reflexivity.
Qed.

(** A turn of the handler keeps the memory within its bound. *)
Lemma turn_keeps_bound `{Env} (s : AgentState) (user_text : pystr) :
  memory_bounded s ->
  memory_bounded (state_after (handle_user_input user_text) s)
  /\ maxlen (memory (state_after (handle_user_input user_text) s)) = maxlen (memory s).
Proof.
  unfold memory_bounded. intros Hb.
  destruct (handle_user_input_step s user_text); subst;
    cbn [memory remember_turn with_memory with_lead_data with_awaiting_field];
    (split; [repeat apply deque_append_bounded; exact Hb | reflexivity]).
Qed.

Lemma session_keeps_bound `{Env} (texts : list pystr) (s : AgentState) :
  memory_bounded s ->
  memory_bounded (state_after (handle_all texts) s)
  /\ maxlen (memory (state_after (handle_all texts) s)) = maxlen (memory s).
Proof.
  revert s. induction texts as [|t texts IH]; intros s Hb; [auto|].
  rewrite state_after_cons.
  destruct (turn_keeps_bound s t Hb) as [Hb1 Hm1].
  destruct (IH _ Hb1) as [Hb2 Hm2]. split; [exact Hb2 | congruence].
Qed.

(** The same at every moment of the turn at which something happens. *)
Lemma turn_moments_bounded `{Env} (s : AgentState) (user_text : pystr) :
  memory_bounded s ->
  forall e st, In (e, st) (trace_of (handle_user_input user_text) s) ->
    memory_bounded st /\ maxlen (memory st) = maxlen (memory s).
Proof.
  unfold memory_bounded. intros Hb e st Hin.
  destruct (handle_user_input_step s user_text); subst;
    try (apply in_app_or in Hin as [Hin|Hin];
         [unfold llm_calls in Hin; destruct llm|]);
    repeat (destruct Hin as [Hin|Hin]; [injection Hin as <- <-|]);
    try contradiction;
    cbn [memory remember_turn with_memory with_lead_data with_awaiting_field];
    (split; [repeat apply deque_append_bounded; exact Hb | reflexivity]).
Qed.

Lemma session_moments_bounded `{Env} (texts : list pystr) (s : AgentState) :
  memory_bounded s ->
  forall e st, In (e, st) (trace_of (handle_all texts) s) ->
    memory_bounded st /\ maxlen (memory st) = maxlen (memory s).
Proof.
  revert s. induction texts as [|t texts IH]; intros s Hb e st Hin; [destruct Hin|].
  rewrite trace_of_cons in Hin. apply in_app_or in Hin as [Hin|Hin].
  - exact (turn_moments_bounded s t Hb e st Hin).
  - destruct (turn_keeps_bound s t Hb) as [Hb1 Hm1].
    destruct (IH _ Hb1 e st Hin) as [Hb2 Hm2]. split; [exact Hb2 | congruence].
Qed.

Lemma save_turns_items (turns : list turn) (s : AgentState) :
  memory_bounded s ->
  items (memory (state_after (save_turns turns) s))
  = drop (length (items (memory s) ++ turns) - maxlen (memory s))
      (items (memory s) ++ turns).
Proof.
  unfold memory_bounded. revert s.
  induction turns as [|t turns IH]; intros s Hb.
  - cbn [save_turns]. unfold state_after, mret, prog_ret. cbn [fst snd].
    rewrite app_nil_r. replace (_ - _)%nat with 0%nat by lia. reflexivity.
  - cbn [save_turns]. rewrite state_after_bind.
    change (state_after (save_turn (user t) (agent t)) s)
      with (remember_turn s (user t) (agent t)).
    rewrite IH; cbn [remember_turn with_memory memory];
      [|rewrite deque_append_maxlen; apply deque_append_length; exact Hb].
    rewrite deque_append_maxlen, (deque_append_items _ _ Hb).
    destruct t as [u a]. cbn [user agent].
    set (l := items (memory s) ++ [{| user := u; agent := a |}]).
    set (m := maxlen (memory s)).
    replace (items (memory s) ++ {| user := u; agent := a |} :: turns)
      with (l ++ turns) by (unfold l; rewrite <- app_assoc; reflexivity).
    assert (Hk : (length l - m <= length l)%nat) by lia.
    rewrite <- (drop_app_le l turns (length l - m)) by exact Hk.
    rewrite drop_drop. f_equal.
    rewrite length_drop, !length_app. lia.
Qed.

Lemma initial_state_bounded : memory_bounded initial_state.
Proof. unfold memory_bounded. cbn. lia. Qed.

(** C6. Whatever the turns of a session are, the memory never holds more
    than six entries, neither at the end of a turn nor at any moment inside
    one.  Entries saved one after the other leave the last six of them, in
    the order they were saved; after seven, the first one is gone and the
    six that followed are there. *)
Theorem memory_keeps_last_six `{Env} :
  (forall texts : list pystr,
      (length (items (memory (state_after (handle_all texts) initial_state))) <= 6)%nat
      /\ forall e st, In (e, st) (trace_of (handle_all texts) initial_state) ->
           (length (items (memory st)) <= 6)%nat)
  /\ (forall turns : list turn,
        items (memory (state_after (save_turns turns) initial_state))
        = drop (length turns - 6) turns)
  /\ (forall (first : turn) (rest : list turn),
        length rest = 6%nat ->
        items (memory (state_after (save_turns (first :: rest)) initial_state)) = rest).
Proof.
  assert (Hlast : forall turns : list turn,
             items (memory (state_after (save_turns turns) initial_state))
             = drop (length turns - 6) turns).
  { intros turns. rewrite (save_turns_items turns _ initial_state_bounded). reflexivity. }
  split; [|split].
  - intros texts. split.
    + destruct (session_keeps_bound texts _ initial_state_bounded) as [Hb Hm].
      unfold memory_bounded in Hb. rewrite Hm in Hb. exact Hb.
    + intros e st Hin.
      destruct (session_moments_bounded texts _ initial_state_bounded e st Hin)
        as [Hb Hm].
      unfold memory_bounded in Hb. rewrite Hm in Hb. exact Hb.
  - exact Hlast.
  - intros first rest Hlen. rewrite Hlast. cbn [length]. rewrite Hlen. reflexivity.
Qed.

(** ** Idle turns *)

(** C8. In the idle state, a text classified as pricing is answered with
    the policy answer when its lowercase form contains [refund], [support]
    or [policy], and with the pricing answer otherwise; the awaited field
    and the lead stay as they were.  The text is the trimmed one the
    handler works on. *)
Theorem pricing_reply `{Env} (s : AgentState) (user_text : pystr) :
  awaiting_field s = None ->
  detect_intent (strip user_text) = pricing ->
  let s' := state_after (handle_user_input user_text) s in
  let tr := trace_of (handle_user_input user_text) s in
  let mentions_policy :=
    exists tok, In tok [lit "refund"; lit "support"; lit "policy"]
                /\ substring tok (lower (strip user_text)) in
  (mentions_policy -> events tr = [ev_print rag_policy_answer])
  /\ (~ mentions_policy -> events tr = [ev_print rag_pricing_answer])
  /\ awaiting_field s' = None
  /\ lead_data s' = lead_data s.
Proof.
  intros Haw Hint s' tr mentions_policy. subst s' tr. unfold state_after, trace_of.
  rewrite (handle_pricing s user_text Haw Hint). cbn [fst snd events map].
  split; [|split; [|split; [exact Haw | reflexivity]]].
  - intros Hyes. apply (any_in_spec policy_tokens) in Hyes. rewrite Hyes. reflexivity.
  - intros Hno. destruct (any_in policy_tokens (lower (strip user_text))) eqn:Hany.
    + exfalso. apply Hno. apply (any_in_spec policy_tokens). exact Hany.
    + reflexivity.
Qed.

Lemma pricing_reply_witness :
  awaiting_field initial_state = None
  /\ detect_intent (H := example_env) (strip (lit "what's the price?")) = pricing
  /\ events (trace_of (handle_user_input (H := example_env) (lit "what's the price?"))
               initial_state)
     = [ev_print (lit "Basic Plan: $9 , 10 videos/month , 720p" ++ [10]
                    ++ lit "Pro Plan: $29 , Unlimited videos , 4K (Features: AI captions, Priority support)")].
Proof.
  split; [reflexivity|]. split; [vm_compute; reflexivity|].
  destruct (pricing_reply (H := example_env) initial_state (lit "what's the price?"))
    as [_ [Hplain _]]; [reflexivity | vm_compute; reflexivity |].
  rewrite Hplain; [reflexivity|].
  intros Hyes. apply (any_in_spec policy_tokens) in Hyes. vm_compute in Hyes. discriminate.
Defined.

(** ** Fallback *)

(** C9. Without a client, [llm_reply] answers the fixed text that points to
    pricing and sign-up, and calls nothing.  With a client that raises, it
    answers the fixed error text.  In both cases the answer is an ordinary
    text that the handler prints and saves like any other: nothing is
    raised further. *)
Theorem llm_reply_degrades `{Env} (prompt : pystr) (s : AgentState) :
  (llm = None ->
   llm_reply prompt s
   = (lit "I can help with pricing or sign-up. Ask 'Tell me about pricing' or 'I want to sign up for Pro'.",
      s, [])
   /\ (awaiting_field s = None -> detect_intent (strip prompt) = other ->
       events (trace_of (handle_user_input prompt) s)
       = [ev_print (lit "I can help with pricing or sign-up. Ask 'Tell me about pricing' or 'I want to sign up for Pro'.")]))
  /\ (forall client, llm = Some client ->
      (client prompt = resp_raise ->
       llm_reply prompt s
       = (lit "Sorry " ++ [8212]
            ++ lit " temporary LLM error. I can still help with pricing or sign-up.",
          s, [(ev_llm prompt, s)]))
      /\ (client (strip prompt) = resp_raise ->
          awaiting_field s = None -> detect_intent (strip prompt) = other ->
          events (trace_of (handle_user_input prompt) s)
          = [ev_llm (strip prompt);
             ev_print (lit "Sorry " ++ [8212]
               ++ lit " temporary LLM error. I can still help with pricing or sign-up.")])).
Proof.
  split.
  - intros Hnone. split.
    + run_handler. rewrite Hnone. reflexivity.
    + intros Haw Hint. unfold trace_of.
      rewrite (handle_other s prompt Haw Hint).
      unfold llm_calls, llm_text, result_of. run_handler. rewrite Hnone. reflexivity.
  - intros client Hsome. split.
    + intros Hraise. run_handler. rewrite Hsome, Hraise. reflexivity.
    + intros Hraise Haw Hint. unfold trace_of.
      rewrite (handle_other s prompt Haw Hint).
      unfold llm_calls, llm_text, result_of. run_handler.
      rewrite Hsome, Hraise. reflexivity.
Qed.

Lemma llm_reply_degrades_witness :
  llm (Env := example_env) = None
  /\ result_of (llm_reply (H := example_env) (lit "tell me a joke")) initial_state
     = lit "I can help with pricing or sign-up. Ask 'Tell me about pricing' or 'I want to sign up for Pro'."
  /\ llm (Env := failing_env) = Some (fun _ => resp_raise)
  /\ result_of (llm_reply (H := failing_env) (lit "tell me a joke")) initial_state
     = lit "Sorry " ++ [8212]
         ++ lit " temporary LLM error. I can still help with pricing or sign-up.".
Proof.
  destruct (llm_reply_degrades (H := example_env) (lit "tell me a joke") initial_state)
    as [Hnone _].
  destruct (llm_reply_degrades (H := failing_env) (lit "tell me a joke") initial_state)
    as [_ Hraise].
  destruct (Hnone eq_refl) as [Hreply _].
  destruct (Hraise (fun _ => resp_raise) eq_refl) as [Hreply' _].
  unfold result_of. rewrite Hreply, (Hreply' eq_refl).
  repeat split.
Defined.

Lemma memory_keeps_last_six_witness :
  let t (n : N) := {| user := [n]; agent := [n] |} in
  items (memory (state_after (save_turns [t 1; t 2; t 3; t 4; t 5; t 6; t 7]) initial_state))
  = [t 2; t 3; t 4; t 5; t 6; t 7].
Proof.
  intros t.
  destruct (memory_keeps_last_six (H := example_env)) as [_ [_ Hseven]].
  apply (Hseven (t 1) [t 2; t 3; t 4; t 5; t 6; t 7]). reflexivity.
Defined.

(** C10. The greeting tokens are looked for as plain substrings.  A text
    whose lowercase form contains [hi] anywhere, inside a word too, and no
    high-intent or pricing token, is classified [greeting], not [other]; in
    the idle state the handler then prints the fixed greeting, and the
    [llm] client is not called. *)
Theorem substring_hi_is_greeting `{Env} :
  (forall text : pystr,
      substring (lit "hi") (lower text) ->
      (forall tok, In tok high_intent_tokens -> ~ substring tok (lower text)) ->
      (forall tok, In tok pricing_tokens -> ~ substring tok (lower text)) ->
      detect_intent text = greeting /\ detect_intent text <> other)
  /\ (forall (s : AgentState) (user_text : pystr),
        awaiting_field s = None ->
        substring (lit "hi") (lower (strip user_text)) ->
        (forall tok, In tok high_intent_tokens -> ~ substring tok (lower (strip user_text))) ->
        (forall tok, In tok pricing_tokens -> ~ substring tok (lower (strip user_text))) ->
        let tr := trace_of (handle_user_input user_text) s in
        events tr
        = [ev_print ([128075]
             ++ lit " Hi! I can tell you about pricing or help you sign up for Pro.")]
        /\ List.filter is_llm (events tr) = []
        /\ awaiting_field (state_after (handle_user_input user_text) s) = None).
Proof.
  assert (Hclass : forall text : pystr,
             substring (lit "hi") (lower text) ->
             (forall tok, In tok high_intent_tokens -> ~ substring tok (lower text)) ->
             (forall tok, In tok pricing_tokens -> ~ substring tok (lower text)) ->
             detect_intent text = greeting).
  { intros text Hhi Hhigh Hprice. apply detect_intent_greeting.
    - apply any_in_false. exact Hhigh.
    - apply any_in_false. exact Hprice.
    - apply any_in_spec. exists (lit "hi"). split; [left; reflexivity | exact Hhi]. }
  split.
  - intros text Hhi Hhigh Hprice. rewrite (Hclass text Hhi Hhigh Hprice).
    split; [reflexivity | discriminate].
  - intros s user_text Haw Hhi Hhigh Hprice tr. subst tr.
    unfold trace_of, state_after.
    rewrite (handle_greeting s user_text Haw (Hclass _ Hhi Hhigh Hprice)).
    split; [reflexivity|]. split; [reflexivity | exact Haw].
Qed.

Lemma substring_hi_is_greeting_witness :
  substring (lit "hi") (ascii_lower (lit "this is broken"))
  /\ detect_intent (H := failing_env) (lit "this is broken") = greeting
  /\ events (trace_of (handle_user_input (H := failing_env) (lit "this is broken"))
               initial_state)
     = [ev_print ([128075]
          ++ lit " Hi! I can tell you about pricing or help you sign up for Pro.")].
Proof.
  assert (Hhi : substring (lit "hi") (ascii_lower (lit "this is broken"))).
  { apply str_in_spec. vm_compute. reflexivity. }
  assert (Hhigh : forall tok, In tok high_intent_tokens ->
                    ~ substring tok (ascii_lower (lit "this is broken"))).
  { apply any_in_false. vm_compute. reflexivity. }
  assert (Hprice : forall tok, In tok pricing_tokens ->
                     ~ substring tok (ascii_lower (lit "this is broken"))).
  { apply any_in_false. vm_compute. reflexivity. }
  destruct (substring_hi_is_greeting (H := failing_env)) as [Hclass Hreply].
  split; [exact Hhi|]. split.
  - exact (proj1 (Hclass (lit "this is broken") Hhi Hhigh Hprice)).
  - exact (proj1 (Hreply initial_state (lit "this is broken") eq_refl Hhi Hhigh Hprice)).
Defined.

Lemma invalid_email_reprompt_witness :
  let s := {| memory := {| maxlen := 6; items := [] |};
              lead_data := <[Name := lit "Jane Doe"]> ∅;
              awaiting_field := Some Email |} in
  awaiting_field s = Some Email
  /\ is_valid_email (lit "not-an-email") = false
  /\ events (trace_of (handle_user_input (H := example_env) (lit "not-an-email")) s)
     = [ev_print
          (lit "That doesn't look like a valid email. Please provide a valid email address.")]
  /\ awaiting_field (state_after (handle_user_input (H := example_env) (lit "not-an-email")) s)
     = Some Email.
Proof.
  intros s.
  destruct (invalid_email_reprompt (H := example_env) s (lit "not-an-email"))
    as [Hsaid [Hstill _]]; [reflexivity | reflexivity |].
  split; [reflexivity|]. split; [reflexivity|]. split; [exact Hsaid | exact Hstill].
Defined.

(** ** The command line loop feeds the handler *)

Lemma delivered_nonblank `{Env} (lines : list pystr) :
  Forall (fun u => strip u <> []) (delivered lines).
Proof.
  induction lines as [|line rest IH]; cbn [delivered]; [constructor|].
  destruct (strip line) as [|c u] eqn:Hline; [exact IH|].
  case_bool_decide; [constructor|].
  constructor; [|exact IH].
  rewrite <- Hline, strip_idem, Hline. discriminate.
Qed.

Lemma main_loop_delivers `{Env} (lines : list pystr) (s : AgentState) :
  state_after (main_loop lines) s = state_after (handle_all (delivered lines)) s
  /\ captures (trace_of (main_loop lines) s)
     = captures (trace_of (handle_all (delivered lines)) s).
Proof.
  revert s. induction lines as [|line rest IH]; intros s.
  - split; reflexivity.
  - cbn [main_loop delivered].
    rewrite state_after_bind, trace_of_bind, captures_app.
    change (state_after (emit (ev_input (lit "User: "))) s) with s.
    change (captures (trace_of (emit (ev_input (lit "User: "))) s)) with (@nil (event * AgentState)).
    rewrite app_nil_l.
    destruct (strip line) as [|c u] eqn:Hline; [apply IH|].
    case_bool_decide; [split; reflexivity|].
    rewrite state_after_cons, trace_of_cons, state_after_bind, trace_of_bind,
      !captures_app.
    destruct (IH (state_after (handle_user_input (c :: u)) s)) as [-> ->].
    split; reflexivity.
Qed.

(** A turn on a text that is not blank keeps the lead free of empty
    values; and when the tool is called, its three arguments are the three
    fields of [lead_data] at that moment, none of them empty. *)
Lemma turn_capture_values `{Env} (s : AgentState) (user_text : pystr) :
  strip user_text <> [] ->
  lead_nonblank s ->
  lead_nonblank (state_after (handle_user_input user_text) s)
  /\ forall name email platform st,
       In (ev_capture name email platform, st)
          (trace_of (handle_user_input user_text) s) ->
       exists n e p,
         name = Some n /\ email = Some e /\ platform = Some p
         /\ n <> [] /\ e <> [] /\ p <> []
         /\ lead_data st !! Name = Some n /\ lead_data st !! Email = Some e
         /\ lead_data st !! Platform = Some p.
Proof.
  unfold lead_nonblank. intros Htext Hs.
  destruct (handle_user_input_step s user_text) as
    [ s' _ _ -> | f next s' _ _ -> | f lead name email platform s2 s3 _ -> Hnone -> -> -> -> ->
    | s' _ _ -> | answer s' _ _ _ -> | s' _ _ -> | s' _ _ -> ];
    cbn [lead_data remember_turn with_memory with_lead_data with_awaiting_field].
  - split; [exact Hs|]. intros n e p st [Hin|[]]. discriminate.
  - split; [apply map_Forall_insert_2; assumption|].
    intros n e p st [Hin|[]]. discriminate.
  - split; [apply map_Forall_empty|].
    assert (Hlead : map_Forall (fun _ v => v <> [])
                      (<[f := strip user_text]> (lead_data s)))
      by (apply map_Forall_insert_2; assumption).
    apply choose_next_field_None in Hnone as [[n Hn] [[e He] [p Hp]]].
    intros name email platform st [Hin|[Hin|[Hin|[Hin|[]]]]]; try discriminate.
    injection Hin as <- <- <- <-.
    exists n, e, p. cbn [lead_data remember_turn with_memory with_lead_data with_awaiting_field].
    repeat split; try assumption.
    + exact (Hlead Name n Hn).
    + exact (Hlead Email e He).
    + exact (Hlead Platform p Hp).
  - split; [exact Hs|]. intros n e p st [Hin|[]]. discriminate.
  - split; [exact Hs|]. intros n e p st [Hin|[]]. discriminate.
  - split; [apply map_Forall_empty|]. intros n e p st [Hin|[]]. discriminate.
  - split; [exact Hs|]. intros n e p st Hin.
    apply in_app_or in Hin as [Hin|[Hin|[]]]; [|discriminate].
    unfold llm_calls in Hin. destruct llm; [|contradiction].
    destruct Hin as [Hin|[]]. discriminate.
Qed.

Lemma session_capture_values `{Env} (texts : list pystr) (s : AgentState) :
  Forall (fun u => strip u <> []) texts ->
  lead_nonblank s ->
  forall name email platform st,
    In (ev_capture name email platform, st) (trace_of (handle_all texts) s) ->
    exists n e p,
      name = Some n /\ email = Some e /\ platform = Some p
      /\ n <> [] /\ e <> [] /\ p <> []
      /\ lead_data st !! Name = Some n /\ lead_data st !! Email = Some e
      /\ lead_data st !! Platform = Some p.
Proof.
  intros Hall. revert s. induction Hall as [|t texts Ht _ IH]; intros s Hs.
  - intros name email platform st [].
  - destruct (turn_capture_values s t Ht Hs) as [Hs1 Hturn].
    intros name email platform st Hin. rewrite trace_of_cons in Hin.
    apply in_app_or in Hin as [Hin|Hin]; [eapply Hturn | eapply IH]; eassumption.
Qed.

(** X12. In a session run by [main], whatever the lines typed, every call
    of the mock tool has three values that are not empty, the ones
    [lead_data] holds at that moment: the loop skips blank lines, so the
    handler never stores an empty name or platform. *)
Lemma main_captures_nonblank `{Env} (lines : list pystr) :
  forall name email platform st,
    In (ev_capture name email platform, st)
       (captures (trace_of (main lines) initial_state)) ->
    exists n e p,
      name = Some n /\ email = Some e /\ platform = Some p
      /\ n <> [] /\ e <> [] /\ p <> []
      /\ lead_data st !! Name = Some n /\ lead_data st !! Email = Some e
      /\ lead_data st !! Platform = Some p.
Proof.
  intros name email platform st Hin.
  unfold main in Hin. rewrite trace_of_bind, captures_app in Hin.
  change (captures (trace_of (print banner_text) initial_state))
    with (@nil (event * AgentState)) in Hin.
  change (state_after (print banner_text) initial_state) with initial_state in Hin.
  rewrite app_nil_l in Hin.
  destruct (main_loop_delivers lines initial_state) as [_ Hsame].
  rewrite Hsame in Hin. unfold captures in Hin. apply filter_In in Hin as [Hin _].
  eapply (session_capture_values (delivered lines)); [| |exact Hin].
  - apply delivered_nonblank.
  - apply map_Forall_empty.
Qed.

(** C1. A completed funnel is a run of turns, as the command line loop
    delivers them (a blank line is no turn), that starts from the idle
    state with a high-intent text and goes on with a name, any number of
    texts turned down as addresses, a valid address and a platform.  For
    every such funnel the mock tool is called exactly once, on the last
    turn and not before, whether the turns are counted at the handler or
    through the loop; it is called with the three values, and at that moment
    [lead_data] holds the three fields name, email and platform, each with a
    trimmed value that is not empty. *)
Theorem completed_funnel_captures_once `{Env} (s : AgentState) (lines : list pystr)
    (start name_text email_text platform_text : pystr) (rejected : list pystr) :
  awaiting_field s = None ->
  delivered lines = start :: name_text :: rejected ++ [email_text; platform_text] ->
  detect_intent (strip start) = high_intent ->
  Forall (fun t => is_valid_email t = false) rejected ->
  is_valid_email email_text = true ->
  let before := start :: name_text :: rejected ++ [email_text] in
  let lead : gmap field pystr :=
    <[Platform := strip platform_text]>
      (<[Email := strip email_text]> (<[Name := strip name_text]> ∅)) in
  captures (trace_of (handle_all before) s) = []
  /\ exists st,
       captures (trace_of (handle_all (before ++ [platform_text])) s)
       = [(ev_capture (Some (strip name_text)) (Some (strip email_text))
             (Some (strip platform_text)), st)]
       /\ captures (trace_of (main_loop lines) s)
          = [(ev_capture (Some (strip name_text)) (Some (strip email_text))
                (Some (strip platform_text)), st)]
       /\ lead_data st = lead
       /\ dom lead = {[Name; Email; Platform]}
       /\ map_Forall (fun _ v => v <> []) lead
       /\ strip (strip name_text) = strip name_text
       /\ strip (strip email_text) = strip email_text
       /\ strip (strip platform_text) = strip platform_text.
Proof.
  intros Haw Hdel Hint Hrej Hemail before lead.
  pose proof (delivered_nonblank lines) as Hnb. rewrite Hdel in Hnb.
  apply List.Forall_cons_iff in Hnb as [_ Hnb].
  apply List.Forall_cons_iff in Hnb as [Hname Hnb].
  apply List.Forall_app in Hnb as [_ Hnb].
  apply List.Forall_cons_iff in Hnb as [_ Hnb].
  apply List.Forall_cons_iff in Hnb as [Hplat _].
  destruct (funnel_captures_once s start name_text email_text platform_text rejected
              Haw Hint Hname Hrej Hemail Hplat)
    as [Hbefore [st [Hcap [Hlead [Hdom Hvals]]]]].
  split; [exact Hbefore|]. exists st.
  split; [exact Hcap|]. split.
  - destruct (main_loop_delivers lines s) as [_ Hsame].
    rewrite Hsame, Hdel.
    replace (start :: name_text :: rejected ++ [email_text; platform_text])
      with ((start :: name_text :: rejected ++ [email_text]) ++ [platform_text])
      by (cbn [app]; rewrite <- app_assoc; reflexivity).
    exact Hcap.
  - split; [exact Hlead|]. split; [exact Hdom|]. split; [exact Hvals|].
    rewrite !strip_idem. auto.
Qed.

Lemma completed_funnel_captures_once_witness :
  let lines := [ lit "I want to sign up"; lit "   "; lit " Jane Doe ";
                 lit "not-an-email"; lit "jane@doe.com"; lit ""; lit "YouTube" ] in
  delivered (H := example_env) lines
  = [ lit "I want to sign up"; lit "Jane Doe"; lit "not-an-email";
      lit "jane@doe.com"; lit "YouTube" ]
  /\ exists st,
       captures (trace_of (main_loop (H := example_env) lines) initial_state)
       = [(ev_capture (Some (lit "Jane Doe")) (Some (lit "jane@doe.com"))
             (Some (lit "YouTube")), st)]
       /\ lead_data st
          = <[Platform := lit "YouTube"]>
              (<[Email := lit "jane@doe.com"]> (<[Name := lit "Jane Doe"]> ∅)).
Proof.
  intros lines. split; [reflexivity|].
  destruct (completed_funnel_captures_once (H := example_env) initial_state lines
              (lit "I want to sign up") (lit "Jane Doe") (lit "jane@doe.com")
              (lit "YouTube") [lit "not-an-email"])
    as [_ [st [_ [Hmain [Hlead _]]]]].
  - reflexivity.
  - reflexivity.
  - vm_compute. reflexivity.
  - repeat constructor.
  - vm_compute. reflexivity.
  - exists st. split; [exact Hmain | exact Hlead].
Defined.

(** ** The shape of the lead during a session *)

Lemma turn_keeps_funnel_state `{Env} (s : AgentState) (user_text : pystr) :
  funnel_state s -> funnel_state (state_after (handle_user_input user_text) s).
Proof.
  unfold funnel_state. intros Hs.
  destruct (handle_user_input_step s user_text) as
    [ s' Haw _ -> | f next s' [Haw _] Hnext ->
    | f lead name email platform s2 s3 _ -> _ -> -> -> -> ->
    | s' Haw _ -> | answer s' Haw _ _ -> | s' _ _ -> | s' Haw _ -> ];
    cbn [awaiting_field lead_data remember_turn with_memory with_lead_data
         with_awaiting_field];
    try (rewrite Haw in *; exact Hs); try reflexivity.
  rewrite Haw in Hs. destruct f.
  - rewrite Hs in *. rewrite choose_next_after_name in Hnext.
    injection Hnext as <-. eauto.
  - destruct Hs as [name Hs]. rewrite Hs in *.
    rewrite choose_next_after_email in Hnext. injection Hnext as <-. eauto.
  - destruct Hs as [name [email Hs]]. rewrite Hs in Hnext.
    rewrite choose_next_after_platform in Hnext. discriminate.
Qed.

(** Every state of a session that starts in the initial state has the shape
    of a funnel: between funnels the lead is empty, and while a field is
    awaited exactly the fields before it are there. *)
Lemma session_funnel_state `{Env} (texts : list pystr) :
  funnel_state (state_after (handle_all texts) initial_state).
Proof.
  assert (Hgen : forall s, funnel_state s -> funnel_state (state_after (handle_all texts) s)).
  { induction texts as [|t texts IH]; intros s Hs; [exact Hs|].
    rewrite state_after_cons. apply IH, turn_keeps_funnel_state, Hs. }
  apply Hgen. reflexivity.
Qed.

(** * Further properties of the code *)

(** ** Trimming *)

Lemma lstrip_spaces (pre x : pystr) :
  Forall (fun c => isspace c = true) pre -> lstrip (pre ++ x) = lstrip x.
Proof.
  induction 1 as [|c pre Hc _ IH]; [reflexivity|].
  cbn [app lstrip]. rewrite Hc. exact IH.
Qed.

Lemma rstrip_spaces (x post : pystr) :
  Forall (fun c => isspace c = true) post -> rstrip (x ++ post) = rstrip x.
Proof.
  intros Hpost. unfold rstrip. rewrite rev_app_distr, lstrip_spaces; [reflexivity|].
  apply List.Forall_forall. intros c Hc. apply in_rev in Hc.
  rewrite List.Forall_forall in Hpost. apply Hpost. exact Hc.
Qed.

Lemma lstrip_nil_spaces (t : pystr) :
  lstrip t = [] -> Forall (fun c => isspace c = true) t.
Proof.
  induction t as [|c t IH]; cbn [lstrip]; [constructor|].
  destruct (isspace c) eqn:Hc; [|discriminate]. intros Ht. constructor; auto.
Qed.

Lemma lstrip_app_kept (t post : pystr) :
  lstrip t <> [] -> lstrip (t ++ post) = lstrip t ++ post.
Proof.
  induction t as [|c t IH]; cbn [lstrip app]; [congruence|].
  destruct (isspace c); [exact IH | reflexivity].
Qed.

Lemma strip_padding (pre t post : pystr) :
  Forall (fun c => isspace c = true) pre ->
  Forall (fun c => isspace c = true) post ->
  strip (pre ++ t ++ post) = strip t.
Proof.
  intros Hpre Hpost. unfold strip. rewrite (lstrip_spaces pre _ Hpre).
  destruct (lstrip t) as [|c r] eqn:Ht.
  - rewrite (lstrip_spaces t post (lstrip_nil_spaces t Ht)).
    replace (lstrip post) with (@nil N); [reflexivity|].
    symmetry. rewrite <- (app_nil_r post). rewrite (lstrip_spaces post [] Hpost).
    reflexivity.
  - rewrite lstrip_app_kept by (rewrite Ht; discriminate).
    rewrite Ht. apply rstrip_spaces. exact Hpost.
Qed.

Lemma lstrip_split (s : pystr) :
  exists pre, s = pre ++ lstrip s /\ Forall (fun c => isspace c = true) pre.
Proof.
  induction s as [|c s [pre [Heq Hpre]]]; cbn [lstrip].
  - exists []. split; [reflexivity | constructor].
  - destruct (isspace c) eqn:Hc.
    + exists (c :: pre). split; [cbn [app]; congruence | constructor; assumption].
    + exists []. split; [reflexivity | constructor].
Qed.

Lemma rstrip_split (s : pystr) :
  exists post, s = rstrip s ++ post /\ Forall (fun c => isspace c = true) post.
Proof.
  destruct (lstrip_split (rev s)) as [pre [Heq Hpre]]. exists (rev pre). split.
  - unfold rstrip. rewrite <- rev_app_distr, <- Heq, rev_involutive. reflexivity.
  - apply List.Forall_forall. intros c Hc. apply in_rev in Hc.
    rewrite List.Forall_forall in Hpre. apply Hpre. exact Hc.
Qed.

(** X1. Blanks around the user's text never matter: the handler does the
    same on a text and on that text with white space added before and after
    it, and the validator gives the same answer.  A text is its trimmed
    form with white space around it, so the handler does the same on a text
    and on its trimmed form. *)
Theorem surrounding_blanks_ignored `{Env} (s : AgentState) (t : pystr) :
  (forall pre post : pystr,
      Forall (fun c => isspace c = true) pre ->
      Forall (fun c => isspace c = true) post ->
      handle_user_input (pre ++ t ++ post) s = handle_user_input t s
      /\ is_valid_email (pre ++ t ++ post) = is_valid_email t)
  /\ (exists pre post,
         t = pre ++ strip t ++ post
         /\ Forall (fun c => isspace c = true) pre
         /\ Forall (fun c => isspace c = true) post)
  /\ handle_user_input (strip t) s = handle_user_input t s.
Proof.
  split; [|split].
  - intros pre post Hpre Hpost. unfold is_valid_email.
    cbv beta delta [handle_user_input]. rewrite (strip_padding pre t post Hpre Hpost).
    split; reflexivity.
  - destruct (lstrip_split t) as [pre [Hpre_eq Hpre]].
    destruct (rstrip_split (lstrip t)) as [post [Hpost_eq Hpost]].
    exists pre, post. split; [|split; assumption].
    unfold strip. rewrite <- Hpost_eq. exact Hpre_eq.
  - cbv beta delta [handle_user_input]. rewrite strip_idem. reflexivity.
Qed.

Lemma surrounding_blanks_ignored_witness :
  handle_user_input (H := example_env) (lit "  hello" ++ [9; 10]) initial_state
  = handle_user_input (H := example_env) (lit "hello") initial_state.
Proof.
  destruct (surrounding_blanks_ignored (H := example_env) initial_state (lit "hello"))
    as [Hpad _].
  destruct (Hpad (lit "  ") [9; 10]) as [Hsame _].
  - repeat constructor.
  - repeat constructor.
  - exact Hsame.
Defined.

(** ** The classifier, case by case *)

(** X2. What decides the intent: [high_intent] exactly when the lowercase
    text contains a high-intent token; [pricing] exactly when it contains
    none of those and a pricing token; [greeting] exactly when it contains
    none of either and a greeting token; [other] exactly when it contains no
    token at all. *)
Theorem detect_intent_cases `{Env} (text : pystr) :
  let has (tokens : list pystr) :=
    exists tok, In tok tokens /\ substring tok (lower text) in
  (detect_intent text = high_intent <-> has high_intent_tokens)
  /\ (detect_intent text = pricing <->
      ~ has high_intent_tokens /\ has pricing_tokens)
  /\ (detect_intent text = greeting <->
      ~ has high_intent_tokens /\ ~ has pricing_tokens /\ has greeting_tokens)
  /\ (detect_intent text = other <->
      ~ has high_intent_tokens /\ ~ has pricing_tokens /\ ~ has greeting_tokens).
Proof.
  intros has. subst has. cbv beta. rewrite <- !any_in_spec. unfold detect_intent.
  destruct (any_in high_intent_tokens (lower text));
    destruct (any_in pricing_tokens (lower text));
    destruct (any_in greeting_tokens (lower text));
    repeat split; intros; try discriminate; try tauto;
    repeat match goal with H : _ /\ _ |- _ => destruct H end;
    try discriminate; try contradiction; try (exfalso; auto; fail).
Qed.

Lemma substring_trans (a b t : pystr) :
  substring a b -> substring b t -> substring a t.
Proof.
  intros [p1 [q1 ->]] [p2 [q2 ->]]. exists (p2 ++ p1), (q1 ++ q2).
  rewrite <- !app_assoc. reflexivity.
Qed.

(** Tokens that contain another token of the list add nothing. *)
Lemma any_in_covered (l1 l2 : list pystr) (t : pystr) :
  forallb (fun tok => any_in l2 tok) l1 = true ->
  any_in l1 t = true -> any_in l2 t = true.
Proof.
  intros Hcov Hany. rewrite forallb_forall in Hcov.
  apply any_in_spec in Hany as [tok [Hin Hsub]].
  specialize (Hcov tok Hin). apply any_in_spec in Hcov as [tok' [Hin' Hsub']].
  apply any_in_spec. exists tok'. split; [exact Hin'|].
  exact (substring_trans _ _ _ Hsub' Hsub).
Qed.

Lemma any_in_same (l1 l2 : list pystr) (t : pystr) :
  forallb (fun tok => any_in l2 tok) l1 = true ->
  forallb (fun tok => any_in l1 tok) l2 = true ->
  any_in l1 t = any_in l2 t.
Proof.
  intros H12 H21.
  destruct (any_in l1 t) eqn:H1.
  - symmetry. exact (any_in_covered l1 l2 t H12 H1).
  - destruct (any_in l2 t) eqn:H2; [|reflexivity].
    rewrite (any_in_covered l2 l1 t H21 H2) in H1. discriminate.
Qed.

(** X3. Four tokens of the classifier never decide anything, because each
    contains a shorter token of its own list: [i want to sign up] and
    [i want to subscribe] among the high-intent tokens, [basic plan] and
    [pro plan] among the pricing tokens.  The tests give the same answer
    without them.  And since [pro plan] is a high-intent token, a text that
    contains it is never classified as pricing. *)
Theorem tokens_that_never_decide `{Env} (text : pystr) :
  any_in high_intent_tokens (lower text)
  = any_in [ lit "sign up"; lit "signup"; lit "i want to sign"; lit "i want to try";
             lit "i'll take"; lit "i will take"; lit "subscribe"; lit "buy";
             lit "get started"; lit "get pro"; lit "start trial"; lit "pro plan";
             lit "i want the pro"; lit "i want pro" ] (lower text)
  /\ any_in pricing_tokens (lower text)
     = any_in [ lit "price"; lit "pricing"; lit "cost"; lit "plan"; lit "features" ]
         (lower text)
  /\ (substring (lit "pro plan") (lower text) -> detect_intent text = high_intent).
Proof.
  split; [|split].
  - apply any_in_same; vm_compute; reflexivity.
  - apply any_in_same; vm_compute; reflexivity.
  - intros Hsub. unfold detect_intent.
    replace (any_in high_intent_tokens (lower text)) with true; [reflexivity|].
    symmetry. apply any_in_spec. exists (lit "pro plan"). split; [|exact Hsub].
    unfold high_intent_tokens. cbn [In]. tauto.
Qed.

Lemma tokens_that_never_decide_witness :
  substring (lit "pro plan") (ascii_lower (lit "How much is the Pro plan?"))
  /\ detect_intent (H := example_env) (lit "How much is the Pro plan?") = high_intent.
Proof.
  assert (Hsub : substring (lit "pro plan") (ascii_lower (lit "How much is the Pro plan?"))).
  { apply str_in_spec. vm_compute. reflexivity. }
  split; [exact Hsub|].
  destruct (tokens_that_never_decide (H := example_env) (lit "How much is the Pro plan?"))
    as [_ [_ Hpro]].
  exact (Hpro Hsub).
Defined.

(** ** What a valid address looks like *)

Lemma filter_at_none (l : pystr) :
  Forall (fun c => c <> at_sign) l -> List.filter (N.eqb at_sign) l = [].
Proof.
  induction 1 as [|c l Hc _ IH]; [reflexivity|]. cbn [List.filter].
  destruct (N.eqb_spec at_sign c) as [Heq|_]; [congruence | exact IH].
Qed.

(** X4. A text the validator accepts has, once trimmed, exactly one at
    sign, with something before it, and after it at least three characters
    among which a full stop; so it is at least five characters long.  In
    particular a blank text is never accepted. *)
Theorem valid_email_consequences (s : pystr) :
  is_valid_email s = true ->
  length (List.filter (N.eqb at_sign) (strip s)) = 1%nat
  /\ (exists loc domain,
         strip s = loc ++ [at_sign] ++ domain
         /\ loc <> [] /\ ~ In at_sign loc /\ ~ In at_sign domain
         /\ In full_stop domain /\ (3 <= length domain)%nat)
  /\ (5 <= length (strip s))%nat
  /\ strip s <> [].
Proof.
  intros Hv.
  apply is_valid_email_spec in Hv as [a [b [c [Heq [[Ha Ha'] [[Hb Hb'] [Hc Hc']]]]]]].
  assert (Hla : (1 <= length a)%nat) by (destruct a; [congruence | cbn; lia]).
  assert (Hlb : (1 <= length b)%nat) by (destruct b; [congruence | cbn; lia]).
  assert (Hlc : (1 <= length c)%nat) by (destruct c; [congruence | cbn; lia]).
  assert (Hno : forall l, Forall (fun x => x <> at_sign) l -> ~ In at_sign l).
  { intros l Hl Hin. rewrite List.Forall_forall in Hl. exact (Hl _ Hin eq_refl). }
  rewrite Heq. split; [|split; [|split]].
  - rewrite !List.filter_app, (filter_at_none a Ha'), (filter_at_none b Hb'),
      (filter_at_none c Hc'). reflexivity.
  - exists a, (b ++ [full_stop] ++ c). split; [reflexivity|].
    split; [exact Ha|]. split; [exact (Hno a Ha')|]. split; [|split].
    + intros Hin. apply in_app_or in Hin as [Hin|Hin]; [exact (Hno b Hb' Hin)|].
      apply in_app_or in Hin as [[Hin|[]]|Hin]; [discriminate | exact (Hno c Hc' Hin)].
    + apply in_or_app. right. left. reflexivity.
    + rewrite !length_app. cbn [length]. lia.
  - rewrite !length_app. cbn [length]. lia.
  - destruct a; [congruence | discriminate].
Qed.

Lemma valid_email_consequences_witness :
  is_valid_email (lit " jane@doe.com ") = true
  /\ length (List.filter (N.eqb at_sign) (strip (lit " jane@doe.com "))) = 1%nat.
Proof.
  split; [reflexivity|].
  exact (proj1 (valid_email_consequences (lit " jane@doe.com ") eq_refl)).
Defined.

(** ** The next field *)

(** X5. [choose_next_field] gives the first of name, email, platform that
    the lead does not have yet, whatever else it has, and [None] exactly
    when it has all three. *)
Theorem choose_next_field_cases (collected : gmap field pystr) :
  (choose_next_field collected = Some Name <-> collected !! Name = None)
  /\ (choose_next_field collected = Some Email <->
      is_Some (collected !! Name) /\ collected !! Email = None)
  /\ (choose_next_field collected = Some Platform <->
      is_Some (collected !! Name) /\ is_Some (collected !! Email)
      /\ collected !! Platform = None)
  /\ (choose_next_field collected = None <->
      is_Some (collected !! Name) /\ is_Some (collected !! Email)
      /\ is_Some (collected !! Platform)).
Proof.
  unfold choose_next_field. cbn [List.find].
  destruct (collected !! Name) as [n|], (collected !! Email) as [e|],
    (collected !! Platform) as [p|];
    repeat case_bool_decide; cbn [negb];
    repeat match goal with
           | H : ~ is_Some (Some _) |- _ => exfalso; apply H; eauto
           | H : is_Some None |- _ => destruct H; discriminate
           end;
    repeat split; intros; try discriminate; try reflexivity; eauto;
    repeat match goal with
           | H : _ /\ _ |- _ => destruct H
           | H : is_Some None |- _ => destruct H; discriminate
           end; try discriminate.
Qed.

(** ** Answers from an incomplete knowledge document *)

(** X6. The lookups never fail on a missing key.  Without a pricing
    section, or with one that has neither plan, every value of the pricing
    answer reads [None]; without a policies section both policies read
    [None].  A pro plan without features, or with an empty list of them,
    gets no features part: the answer is then the two plain lines. *)
Theorem answers_with_missing_keys `{Env} :
  (default no_pricing (kb_pricing KB) = no_pricing ->
   rag_pricing_answer
   = lit "Basic Plan: None , None , None" ++ [10] ++ lit "Pro Plan: None , None , None")
  /\ (kb_policies KB = None ->
      rag_policy_answer = lit "Refund policy: None. Support: None.")
  /\ (forall basic pro,
        kb_pricing KB = Some {| kb_basic := Some basic; kb_pro := Some pro |} ->
        default [] (plan_features pro) = [] ->
        rag_pricing_answer
        = (lit "Basic Plan: " ++ fmt (plan_price basic) ++ lit " , "
             ++ fmt (plan_videos basic) ++ lit " , " ++ fmt (plan_resolution basic))
          ++ [10]
          ++ (lit "Pro Plan: " ++ fmt (plan_price pro) ++ lit " , "
                ++ fmt (plan_videos pro) ++ lit " , " ++ fmt (plan_resolution pro))).
Proof.
  split; [|split].
  - intros Hnone. unfold rag_pricing_answer. rewrite Hnone. reflexivity.
  - intros Hnone. unfold rag_policy_answer. rewrite Hnone. reflexivity.
  - intros basic pro Hkb Hfeat. unfold rag_pricing_answer. rewrite Hkb.
    cbn [default kb_basic kb_pro from_option id]. rewrite Hfeat. reflexivity.
Qed.

Lemma answers_with_missing_keys_witness :
  kb_policies (KB (Env := bare_env)) = None
  /\ rag_policy_answer (H := bare_env) = lit "Refund policy: None. Support: None."
  /\ rag_pricing_answer (H := bare_env)
     = lit "Basic Plan: None , None , None" ++ [10] ++ lit "Pro Plan: None , None , None".
Proof.
  destruct (answers_with_missing_keys (H := bare_env)) as [Hprice [Hpol _]].
  split; [reflexivity|]. split; [exact (Hpol eq_refl) | exact (Hprice eq_refl)].
Defined.

(** ** A fallback that answers *)

(** X7. In the idle state, on a text that is in no group, the client is
    called once with the trimmed text.  A plain string it returns is
    printed and saved as it is; of an object, the [content] attribute is
    taken when there is one and the object's string form when there is
    not; and when the string form cannot be computed the error text is
    given even if the object had a [content], because the default of
    [getattr] is computed first.  The awaited field and the lead do not
    change. *)
Theorem fallback_reply `{Env} (s : AgentState) (user_text : pystr)
    (client : pystr -> llm_response) :
  awaiting_field s = None ->
  detect_intent (strip user_text) = other ->
  llm = Some client ->
  let reply :=
    match client (strip user_text) with
    | resp_str text => text
    | resp_obj (Some content) (Some _) => content
    | resp_obj None (Some shown) => shown
    | resp_obj _ None | resp_raise =>
        lit "Sorry " ++ [8212]
          ++ lit " temporary LLM error. I can still help with pricing or sign-up."
    end in
  let s' := state_after (handle_user_input user_text) s in
  events (trace_of (handle_user_input user_text) s)
  = [ev_llm (strip user_text); ev_print reply]
  /\ memory s' = deque_append (memory s) {| user := strip user_text; agent := reply |}
  /\ awaiting_field s' = None
  /\ lead_data s' = lead_data s.
Proof.
  intros Haw Hint Hllm reply s'. subst s' reply. unfold state_after, trace_of.
  rewrite (handle_other s user_text Haw Hint).
  unfold llm_calls, llm_text, result_of. run_handler. rewrite Hllm.
  cbn [fst snd events map app awaiting_field lead_data memory remember_turn with_memory].
  destruct (client (strip user_text)) as [text|[content|] [shown|]|];
    repeat split; try reflexivity; exact Haw.
Qed.

Lemma fallback_reply_witness :
  detect_intent (H := echo_env) (strip (lit "tell me a joke")) = other
  /\ events (trace_of (handle_user_input (H := echo_env) (lit "tell me a joke"))
               initial_state)
     = [ev_llm (lit "tell me a joke"); ev_print (lit "tell me a joke")].
Proof.
  split; [vm_compute; reflexivity|].
  destruct (fallback_reply (H := echo_env) initial_state (lit "tell me a joke")
              (fun p => resp_str p)) as [Hsaid _];
    [reflexivity | vm_compute; reflexivity | reflexivity | exact Hsaid].
Defined.

(** ** Inside a funnel *)

(** X8. While a field is awaited the text is never classified: whatever it
    says (a greeting, a question about prices, a new wish to sign up), it
    is taken as the value of the field, except an invalid address.  The
    handler then asks for the field after it, or, after the platform,
    calls the tool and goes back to the idle state; the [llm] client is not
    called. *)
Theorem awaited_field_takes_any_text `{Env} (s : AgentState) (user_text : pystr)
    (f : field) :
  funnel_state s ->
  awaiting_field s = Some f ->
  (f = Email -> is_valid_email user_text = true) ->
  let s' := state_after (handle_user_input user_text) s in
  let tr := trace_of (handle_user_input user_text) s in
  awaiting_field s' = field_after f
  /\ (f <> Platform -> lead_data s' !! f = Some (strip user_text))
  /\ (forall next, field_after f = Some next -> events tr = [ev_print (prompt_map next)])
  /\ List.filter is_llm (events tr) = [].
Proof.
  intros Hs Haw Hok s' tr. subst s' tr.
  assert (Hst : stores s user_text f) by (split; assumption).
  unfold funnel_state in Hs. rewrite Haw in Hs. unfold state_after, trace_of.
  destruct f.
  - rewrite (handle_next_field s user_text Name Email Hst)
      by (rewrite Hs; reflexivity).
    cbn [fst snd awaiting_field lead_data remember_turn with_memory with_lead_data
         with_awaiting_field].
    split; [reflexivity|]. split; [intros _; apply lookup_insert_eq|].
    split; [|reflexivity]. intros next Hnext. injection Hnext as <-. reflexivity.
  - destruct Hs as [name Hs].
    rewrite (handle_next_field s user_text Email Platform Hst)
      by (rewrite Hs; reflexivity).
    cbn [fst snd awaiting_field lead_data remember_turn with_memory with_lead_data
         with_awaiting_field].
    split; [reflexivity|]. split; [intros _; apply lookup_insert_eq|].
    split; [|reflexivity]. intros next Hnext. injection Hnext as <-. reflexivity.
  - destruct Hs as [name [email Hs]].
    rewrite (handle_complete s user_text Platform Hst)
      by (rewrite Hs; reflexivity).
    cbn [fst snd awaiting_field lead_data with_lead_data].
    split; [reflexivity|]. split; [congruence|].
    split; [|reflexivity]. intros next Hnext. discriminate.
Qed.

Lemma awaited_field_takes_any_text_witness :
  let s := {| memory := {| maxlen := 6; items := [] |};
              lead_data := ∅; awaiting_field := Some Name |} in
  detect_intent (H := example_env) (lit "hello, what is the price?") = pricing
  /\ lead_data (state_after (handle_user_input (H := example_env)
                               (lit "hello, what is the price?")) s) !! Name
     = Some (lit "hello, what is the price?")
  /\ awaiting_field (state_after (handle_user_input (H := example_env)
                                    (lit "hello, what is the price?")) s)
     = Some Email.
Proof.
  intros s. split; [vm_compute; reflexivity|].
  destruct (awaited_field_takes_any_text (H := example_env) s
              (lit "hello, what is the price?") Name)
    as [Hnext [Hstored _]]; [reflexivity | reflexivity | discriminate |].
  split; [exact (Hstored ltac:(discriminate)) | exact Hnext].
Defined.

(** In a funnel state a turn either calls the tool once, and then the
    platform was awaited and the funnel is over, or does not call it, and
    then the funnel has moved on by one step at most. *)
Lemma turn_in_funnel `{Env} (s : AgentState) (user_text : pystr) :
  funnel_state s ->
  let s' := state_after (handle_user_input user_text) s in
  let tr := trace_of (handle_user_input user_text) s in
  (awaiting_field s <> Some Platform /\ captures tr = []
   /\ (progress s' <= progress s + 1)%nat)
  \/ (awaiting_field s = Some Platform /\ (exists x, captures tr = [x])
      /\ progress s' = 0%nat).
Proof.
  intros Hs s' tr. subst s' tr. unfold funnel_state in Hs. unfold progress at 2.
  destruct (awaiting_field s) as [[| |]|] eqn:Haw.
  - left. split; [discriminate|].
    assert (Hst : stores s user_text Name) by (split; [exact Haw | discriminate]).
    destruct (turn_next_field s user_text Name Email Hst) as [Haw' [_ Hcap]];
      [rewrite Hs; reflexivity|].
    split; [exact Hcap|]. unfold progress. rewrite Haw'. lia.
  - left. split; [discriminate|]. destruct Hs as [name Hs].
    destruct (is_valid_email user_text) eqn:Hv.
    + assert (Hst : stores s user_text Email) by (split; [exact Haw | auto]).
      destruct (turn_next_field s user_text Email Platform Hst) as [Haw' [_ Hcap]];
        [rewrite Hs; reflexivity|].
      split; [exact Hcap|]. unfold progress. rewrite Haw'. lia.
    + destruct (turn_invalid_email s user_text Haw Hv) as [Haw' [_ Hcap]].
      split; [exact Hcap|]. unfold progress. rewrite Haw'. lia.
  - right. split; [reflexivity|]. destruct Hs as [name [email Hs]].
    assert (Hst : stores s user_text Platform) by (split; [exact Haw | discriminate]).
    destruct (turn_complete s user_text Platform Hst) as [Haw' [_ [st [Hcap _]]]];
      [rewrite Hs; reflexivity|].
    split; [eauto|]. unfold progress. rewrite Haw'. reflexivity.
  - left. split; [discriminate|]. unfold state_after, trace_of, progress.
    destruct (detect_intent (strip user_text)) eqn:Hint.
    + rewrite (handle_high_intent s user_text Haw Hint). split; [reflexivity|].
      cbn. lia.
    + rewrite (handle_pricing s user_text Haw Hint). split; [reflexivity|].
      cbn [fst snd awaiting_field remember_turn with_memory]. rewrite Haw. lia.
    + rewrite (handle_greeting s user_text Haw Hint). split; [reflexivity|].
      cbn [fst snd awaiting_field remember_turn with_memory]. rewrite Haw. lia.
    + rewrite (handle_other s user_text Haw Hint).
      cbn [fst snd awaiting_field remember_turn with_memory]. rewrite Haw.
      split; [|lia]. rewrite captures_app. unfold llm_calls.
      destruct llm; reflexivity.
Qed.

(** X9. In every state a session reaches, a turn calls the mock tool at
    most once, and it calls it exactly when the platform is awaited: never
    from the idle state, never while the name or the email is awaited. *)
Theorem capture_only_after_platform `{Env} (texts : list pystr) (user_text : pystr) :
  let s := state_after (handle_all texts) initial_state in
  let tr := trace_of (handle_user_input user_text) s in
  (length (captures tr) <= 1)%nat
  /\ (captures tr <> [] <-> awaiting_field s = Some Platform).
Proof.
  intros s tr. subst tr.
  destruct (turn_in_funnel s user_text (session_funnel_state texts))
    as [[Hnot [Hcap _]] | [Hplat [[x Hcap] _]]]; rewrite Hcap.
  - split; [cbn; lia|]. split; [congruence | intros Habs; contradiction].
  - split; [cbn; lia|]. split; [intros _; exact Hplat | discriminate].
Qed.

(** X10. A funnel takes four turns at least, so in a session of [n] turns
    from the initial state the mock tool is called at most [n / 4] times. *)
Theorem captures_take_four_turns `{Env} (texts : list pystr) :
  (4 * length (captures (trace_of (handle_all texts) initial_state)) <= length texts)%nat.
Proof.
  assert (Hgen : forall s, funnel_state s ->
            (4 * length (captures (trace_of (handle_all texts) s))
             + progress (state_after (handle_all texts) s)
             <= progress s + length texts)%nat).
  { induction texts as [|t texts IH]; intros s Hs.
    - cbn. lia.
    - rewrite trace_of_cons, state_after_cons, captures_app, length_app.
      specialize (IH _ (turn_keeps_funnel_state s t Hs)).
      cbn [length].
      destruct (turn_in_funnel s t Hs) as [[_ [Hcap Hprog]] | [Hplat [[x Hcap] Hprog]]];
        rewrite Hcap; cbn [length].
      + lia.
      + assert (Hthree : progress s = 3%nat)
          by (unfold progress; rewrite Hplat; reflexivity).
        lia. }
  specialize (Hgen initial_state eq_refl).
  change (progress initial_state) with 0%nat in Hgen. lia.
Qed.

(** X11. Every state a session reaches from the initial state has the
    shape of a funnel: between funnels, and while the name is awaited, the
    lead is empty; while the email is awaited it holds the name and nothing
    else; while the platform is awaited it holds the name and the email and
    nothing else.  So at the end of a turn the lead never has all three
    fields: a complete lead is handed to the tool and cleared within the
    turn that completes it. *)
Theorem reachable_lead_shape `{Env} (texts : list pystr) :
  let s := state_after (handle_all texts) initial_state in
  match awaiting_field s with
  | None | Some Name => lead_data s = ∅
  | Some Email => exists name, lead_data s = <[Name := name]> ∅
  | Some Platform =>
      exists name email, lead_data s = <[Email := email]> (<[Name := name]> ∅)
  end
  /\ (size (lead_data s) < 3)%nat
  /\ lead_data s !! Platform = None.
Proof.
  intros s. pose proof (session_funnel_state texts) as Hs. fold s in Hs.
  unfold funnel_state in Hs. split; [exact Hs|].
  destruct (awaiting_field s) as [[| |]|].
  - rewrite Hs. split; [rewrite map_size_empty; lia | reflexivity].
  - destruct Hs as [name ->]. split; [|reflexivity].
    rewrite map_size_insert_None by reflexivity. rewrite map_size_empty. lia.
  - destruct Hs as [name [email ->]]. split; [|reflexivity].
    rewrite !map_size_insert_None by reflexivity. rewrite map_size_empty. lia.
  - rewrite Hs. split; [rewrite map_size_empty; lia | reflexivity].
Qed.

(** ** The command line loop *)

Lemma delivered_until_exit `{Env} (before after : list pystr) (q : pystr) :
  strip q <> [] ->
  lower (strip q) ∈ [lit "exit"; lit "quit"] ->
  delivered (before ++ q :: after) = delivered before.
Proof.
  intros Hq Hexit. induction before as [|line before IH]; cbn [app delivered].
  - destruct (strip q) as [|c u]; [congruence|].
    rewrite bool_decide_eq_true_2 by exact Hexit. reflexivity.
  - destruct (strip line) as [|c u]; [exact IH|].
    case_bool_decide; [reflexivity | rewrite IH; reflexivity].
Qed.

Lemma main_loop_until_exit `{Env} (before after : list pystr) (q : pystr)
    (s : AgentState) :
  strip q <> [] ->
  lower (strip q) ∈ [lit "exit"; lit "quit"] ->
  main_loop (before ++ q :: after) s = main_loop (before ++ [q]) s.
Proof.
  intros Hq Hexit. revert s.
  induction before as [|line before IH]; intros s; cbn [app main_loop].
  - destruct (strip q) as [|c u]; [congruence|].
    rewrite bool_decide_eq_true_2 by exact Hexit. reflexivity.
  - unfold mbind, prog_bind. cbn beta iota zeta.
    destruct (emit (ev_input (lit "User: ")) s) as [[a s1] t1].
    destruct (strip line) as [|c u]; [rewrite IH; reflexivity|].
    case_bool_decide; [reflexivity|].
    destruct (handle_user_input (c :: u) s1) as [[b s2] t2].
    rewrite IH. reflexivity.
Qed.

(** X13. A line that reads [exit] or [quit], in any case and with blanks
    around it, ends the session: what is typed after it changes nothing,
    and the handler never sees it or any later line.  This holds in the
    middle of a funnel too, where the handler itself would have taken the
    word as the value of the awaited field. *)
Theorem exit_ends_session `{Env} (before after : list pystr) (q : pystr)
    (s : AgentState) :
  strip q <> [] ->
  lower (strip q) ∈ [lit "exit"; lit "quit"] ->
  main (before ++ q :: after) s = main (before ++ [q]) s
  /\ delivered (before ++ q :: after) = delivered before
  /\ state_after (main_loop (before ++ q :: after)) s
     = state_after (handle_all (delivered before)) s.
Proof.
  intros Hq Hexit. split; [|split].
  - unfold main, mbind, prog_bind.
    destruct (print banner_text s) as [[a s1] t1].
    rewrite (main_loop_until_exit before after q s1 Hq Hexit). reflexivity.
  - exact (delivered_until_exit before after q Hq Hexit).
  - destruct (main_loop_delivers (before ++ q :: after) s) as [Hstate _].
    rewrite Hstate, (delivered_until_exit before after q Hq Hexit). reflexivity.
Qed.

Lemma exit_ends_session_witness :
  let before := [lit "I want to sign up"] in
  let after := [lit "Jane Doe"; lit "jane@doe.com"; lit "YouTube"] in
  main (H := example_env) (before ++ lit " EXIT " :: after) initial_state
  = main (H := example_env) (before ++ [lit " EXIT "]) initial_state
  /\ awaiting_field (state_after (main_loop (H := example_env)
                                    (before ++ lit " EXIT " :: after)) initial_state)
     = Some Name.
Proof.
  intros before after.
  destruct (exit_ends_session (H := example_env) before after (lit " EXIT ") initial_state)
    as [Hsame [_ Hstate]].
  - vm_compute. discriminate.
  - vm_compute. apply list_elem_of_here.
  - split; [exact Hsame|]. rewrite Hstate. reflexivity.
Defined.

(** ** Memory of any size *)

(** X14. For any [history_turns], a session never keeps more entries than
    that, and what is saved leaves the last [history_turns] entries in the
    order they were saved.  With [history_turns] at zero nothing is ever
    kept. *)
Theorem memory_keeps_last_n `{Env} (history_turns : nat) :
  (forall texts : list pystr,
      (length (items (memory (state_after (handle_all texts)
                                (new_AgentState history_turns)))) <= history_turns)%nat)
  /\ (forall turns : list turn,
        items (memory (state_after (save_turns turns) (new_AgentState history_turns)))
        = drop (length turns - history_turns) turns)
  /\ (forall texts : list pystr,
        items (memory (state_after (handle_all texts) (new_AgentState 0))) = []).
Proof.
  assert (Hinit : forall n, memory_bounded (new_AgentState n)).
  { intros n. unfold memory_bounded. cbn. lia. }
  assert (Hbound : forall n texts,
             (length (items (memory (state_after (handle_all texts)
                                       (new_AgentState n)))) <= n)%nat).
  { intros n texts.
    destruct (session_keeps_bound texts _ (Hinit n)) as [Hb Hm].
    unfold memory_bounded in Hb. rewrite Hm in Hb. exact Hb. }
  split; [|split].
  - apply Hbound.
  - intros turns. rewrite (save_turns_items turns _ (Hinit history_turns)). reflexivity.
  - intros texts. specialize (Hbound 0%nat texts).
    destruct (items (memory (state_after (handle_all texts) (new_AgentState 0))));
      [reflexivity | cbn in Hbound; lia].
Qed.

(** ** What a turn leaves in the memory *)

(** X15. Every turn, on every path through the handler, saves the trimmed
    text of the user with a reply that the turn has printed; the turn that
    completes a funnel saves the closing line as well, against the empty
    text, and no other turn saves a second entry. *)
Theorem every_turn_is_saved `{Env} (s : AgentState) (user_text : pystr) :
  exists reply more,
    memory (state_after (handle_user_input user_text) s)
    = fold_left deque_append ({| user := strip user_text; agent := reply |} :: more)
        (memory s)
    /\ In (ev_print reply) (events (trace_of (handle_user_input user_text) s))
    /\ (more = []
        \/ more = [ {| user := [];
                       agent := lit "Done " ++ [8212]
                         ++ lit " our team will reach out soon. Would you like a setup guide?" |} ]
           /\ captures (trace_of (handle_user_input user_text) s) <> []).
Proof.
  destruct (handle_user_input_step s user_text) as
    [ s' _ _ -> | f next s' _ _ -> | f lead name email platform s2 s3 _ -> _ -> -> -> -> ->
    | s' _ _ -> | answer s' _ _ _ -> | s' _ _ -> | s' _ _ -> ];
    try (eexists; exists []; split; [reflexivity|]; split; [left; reflexivity|];
         left; reflexivity).
  - eexists. exists [{| user := []; agent := final_ack_text |}].
    split; [reflexivity|]. split; [left; reflexivity|].
    right. split; [reflexivity | discriminate].
  - eexists. exists []. split; [reflexivity|]. split; [|left; reflexivity].
    unfold events. rewrite map_app. apply in_or_app. right. left. reflexivity.
Qed.

Lemma main_captures_nonblank_witness :
  let lines := [ lit "I want to sign up"; lit "   "; lit "Jane Doe";
                 lit "jane@doe.com"; lit ""; lit "YouTube" ] in
  exists st,
    In (ev_capture (Some (lit "Jane Doe")) (Some (lit "jane@doe.com"))
          (Some (lit "YouTube")), st)
       (captures (trace_of (main (H := example_env) lines) initial_state))
    /\ lead_data st !! Name = Some (lit "Jane Doe").
Proof.
  intros lines.
  assert (Hcap : exists st,
             captures (trace_of (main (H := example_env) lines) initial_state)
             = [(ev_capture (Some (lit "Jane Doe")) (Some (lit "jane@doe.com"))
                   (Some (lit "YouTube")), st)]).
  { eexists. vm_compute. reflexivity. }
  destruct Hcap as [st Hcap]. exists st.
  assert (Hin : In (ev_capture (Some (lit "Jane Doe")) (Some (lit "jane@doe.com"))
                      (Some (lit "YouTube")), st)
                   (captures (trace_of (main (H := example_env) lines) initial_state))).
  { rewrite Hcap. left. reflexivity. }
  split; [exact Hin|].
  destruct (main_captures_nonblank (H := example_env) lines _ _ _ _ Hin)
    as [n [e [p [Hn [_ [_ [_ [_ [_ [Hname _]]]]]]]]]].
  injection Hn as <-. exact Hname.
Defined.
